(** * ShadowNode: copy-on-write children, sealing and ancestor paths

    A shallow embedding of [ABI34_0_0ShadowNode.cpp].  Objects live in
    typed stores indexed by addresses, so that identity ([==] on shared
    pointers, [this == &other]) is equality of addresses and aliasing of
    a children list between a node and its clones is visible. *)

From stdpp Require Import gmap list fin_maps.

(** ** Data model *)

(** Addresses of heap objects; a non-null shared pointer is an address,
    a nullable one is an [option addr]. *)
Abbreviation addr := positive.

(** [ShadowNodeFragment]: [tag] and [rootTag] are integers (absent when
    zero, which is what [?:] tests), the others are nullable shared
    pointers. *)
Record ShadowNodeFragment := mkFragment {
  tag : Z;
  rootTag : Z;
  props : option addr;
  eventEmitter : option addr;
  children : option addr;
  localData : option addr
}.

(** The fields of a [ShadowNode].  [sealed_] is the flag inherited from
    [Sealable].  [props_] and [children_] are never null: both
    constructors assert it, so they are plain addresses here.

    Modelled from the spec: the header declaring [tag_], [rootTag_] and
    [revision_] is not part of the sources; the spec describes numeric
    identities and a generation counter, taken here as integers. *)
Record ShadowNode := mkNode {
  sealed_ : bool;
  tag_ : Z;
  rootTag_ : Z;
  props_ : addr;
  eventEmitter_ : option addr;
  children_ : addr;
  localData_ : option addr;
  cloneFunction_ : option positive;
  childrenAreShared_ : bool;
  revision_ : Z
}.

(** The stores: nodes, children lists ([SharedShadowNodeList], a vector
    of node pointers), payloads and event emitters.

    Modelled from the spec: [Props] and [EventEmitter] are not part of
    the sources.  A payload is "sealable", so only its sealed flag is
    kept; an event handle "enables/disables event delivery", so only its
    enabled flag is kept. *)
Record Heap := mkHeap {
  nodeStore : gmap addr ShadowNode;
  listStore : gmap addr (list addr);
  propsStore : gmap addr bool;
  emitterStore : gmap addr bool
}.

Definition set_nodeStore (f : gmap addr ShadowNode → gmap addr ShadowNode)
    (h : Heap) : Heap :=
  mkHeap (f (nodeStore h)) (listStore h) (propsStore h) (emitterStore h).

Definition set_listStore (f : gmap addr (list addr) → gmap addr (list addr))
    (h : Heap) : Heap :=
  mkHeap (nodeStore h) (f (listStore h)) (propsStore h) (emitterStore h).

Definition set_propsStore (f : gmap addr bool → gmap addr bool)
    (h : Heap) : Heap :=
  mkHeap (nodeStore h) (listStore h) (f (propsStore h)) (emitterStore h).

Definition set_emitterStore (f : gmap addr bool → gmap addr bool)
    (h : Heap) : Heap :=
  mkHeap (nodeStore h) (listStore h) (propsStore h) (f (emitterStore h)).

Definition set_sealed (b : bool) (n : ShadowNode) : ShadowNode :=
  mkNode b (tag_ n) (rootTag_ n) (props_ n) (eventEmitter_ n) (children_ n)
         (localData_ n) (cloneFunction_ n) (childrenAreShared_ n) (revision_ n).

Definition set_children (p : addr) (n : ShadowNode) : ShadowNode :=
  mkNode (sealed_ n) (tag_ n) (rootTag_ n) (props_ n) (eventEmitter_ n) p
         (localData_ n) (cloneFunction_ n) (childrenAreShared_ n) (revision_ n).

Definition set_childrenAreShared (b : bool) (n : ShadowNode) : ShadowNode :=
  mkNode (sealed_ n) (tag_ n) (rootTag_ n) (props_ n) (eventEmitter_ n)
         (children_ n) (localData_ n) (cloneFunction_ n) b (revision_ n).

Definition set_localData (d : option addr) (n : ShadowNode) : ShadowNode :=
  mkNode (sealed_ n) (tag_ n) (rootTag_ n) (props_ n) (eventEmitter_ n)
         (children_ n) d (cloneFunction_ n) (childrenAreShared_ n) (revision_ n).

(** ** A state monad with faults *)

(** [Ok a h]: normal completion.  [Fault h]: [ensureUnsealed] refused the
    call; [h] is the state at that point.  [Stuck]: the C++ behaviour is
    undefined (null or dangling pointer) or the recursion budget of the
    model ran out. *)
Inductive result (A : Type) : Type :=
| Ok (a : A) (h : Heap)
| Fault (h : Heap)
| Stuck.
Arguments Ok {A} a h.
Arguments Fault {A} h.
Arguments Stuck {A}.

Definition M (A : Type) : Type := Heap → result A.

Definition ret {A} (a : A) : M A := λ h, Ok a h.

Definition bind {A B} (m : M A) (k : A → M B) : M B :=
  λ h, match m h with
       | Ok a h' => k a h'
       | Fault h' => Fault h'
       | Stuck => Stuck
       end.

Notation "'let*' x := m 'in' k" := (bind m (λ x, k))
  (at level 10, x name, m at level 100, k at level 200).
Notation "m >> k" := (bind m (λ _, k))
  (at level 61, left associativity).

Definition getNode (a : addr) : M ShadowNode :=
  λ h, match nodeStore h !! a with Some n => Ok n h | None => Stuck end.

Definition modifyNode (a : addr) (f : ShadowNode → ShadowNode) : M unit :=
  λ h, match nodeStore h !! a with
       | Some n => Ok tt (set_nodeStore <[a := f n]> h)
       | None => Stuck
       end.

Definition getList (p : addr) : M (list addr) :=
  λ h, match listStore h !! p with Some l => Ok l h | None => Stuck end.

Definition setList (p : addr) (l : list addr) : M unit :=
  λ h, match listStore h !! p with
       | Some _ => Ok tt (set_listStore <[p := l]> h)
       | None => Stuck
       end.

(** [std::make_shared<SharedShadowNodeList>(l)]: a new list object at an
    address that no list occupies. *)
Definition make_shared_list (l : list addr) : M addr :=
  λ h, let p := fresh (dom (listStore h)) in
       Ok p (set_listStore <[p := l]> h).

Fixpoint for_each {A} (l : list A) (body : A → M unit) : M unit :=
  match l with
  | [] => ret tt
  | x :: rest => body x >> for_each rest body
  end.

(** ** Sealable *)

(** Modelled from the spec: [Sealable] is not part of the sources.
    "seal(): marks this node only as sealed"; "ensureUnsealed(): fails
    fatally if the node is sealed". *)
Definition getSealed (this : addr) : M bool :=
  let* n := getNode this in ret (sealed_ n).

Definition seal (this : addr) : M unit :=
  modifyNode this (set_sealed true).

Definition ensureUnsealed (this : addr) : M unit :=
  λ h, match nodeStore h !! this with
       | Some n => if sealed_ n then Fault h else Ok tt h
       | None => Stuck
       end.

(** Modelled from the spec: [Props::seal()], the payload's own seal. *)
Definition Props_seal (p : addr) : M unit :=
  λ h, match propsStore h !! p with
       | Some _ => Ok tt (set_propsStore <[p := true]> h)
       | None => Stuck
       end.

(** Modelled from the spec: [EventEmitter::setEnabled(bool)]. *)
Definition EventEmitter_setEnabled (e : addr) (enabled : bool) : M unit :=
  λ h, match emitterStore h !! e with
       | Some _ => Ok tt (set_emitterStore <[e := enabled]> h)
       | None => Stuck
       end.

(** ** Constructors *)

(** [a ?: b] on integers: [a] unless it is zero. *)
Definition elvisZ (a b : Z) : Z := if decide (a = 0%Z) then b else a.

(** [a ?: b] on nullable pointers: [a] unless it is null. *)
Definition elvis (a b : option addr) : option addr :=
  match a with Some _ => a | None => b end.

(** The member initialisers of
    [ShadowNode(const ShadowNode &sourceShadowNode,
                const ShadowNodeFragment &fragment)].
    The [Sealable] base is default-constructed: unsealed. *)
Definition ShadowNode_from_source (sourceShadowNode : ShadowNode)
    (fragment : ShadowNodeFragment) : ShadowNode :=
  {| sealed_ := false;
     tag_ := elvisZ (tag fragment) (tag_ sourceShadowNode);
     rootTag_ := elvisZ (rootTag fragment) (rootTag_ sourceShadowNode);
     props_ := default (props_ sourceShadowNode) (props fragment);
     eventEmitter_ :=
       elvis (eventEmitter fragment) (eventEmitter_ sourceShadowNode);
     children_ := default (children_ sourceShadowNode) (children fragment);
     localData_ := elvis (localData fragment) (localData_ sourceShadowNode);
     cloneFunction_ := cloneFunction_ sourceShadowNode;
     childrenAreShared_ := true;
     revision_ := (revision_ sourceShadowNode + 1)%Z |}.

(** The constructor run on storage [this] that holds no object yet. *)
Definition construct_from_source (this sourceShadowNode : addr)
    (fragment : ShadowNodeFragment) : M unit :=
  λ h, match nodeStore h !! this, nodeStore h !! sourceShadowNode with
       | None, Some src =>
           Ok tt (set_nodeStore
                    <[this := ShadowNode_from_source src fragment]> h)
       | _, _ => Stuck
       end.

(** ** Getters *)

Definition getChildren (this : addr) : M (list addr) :=
  let* n := getNode this in getList (children_ n).

Definition getEventEmitter (this : addr) : M (option addr) :=
  let* n := getNode this in ret (eventEmitter_ n).

(** ** sealRecursive *)

Fixpoint sealRecursive (fuel : nat) (this : addr) : M unit :=
  match fuel with
  | O => λ _, Stuck
  | S fuel' =>
      let* s := getSealed this in
      if s then ret tt
      else
        seal this >>
        (let* n := getNode this in
         Props_seal (props_ n) >>
         (let* l := getList (children_ n) in
          for_each l (sealRecursive fuel')))
  end.

(** ** Mutating methods *)

Definition cloneChildrenIfShared (this : addr) : M unit :=
  let* n := getNode this in
  if negb (childrenAreShared_ n) then ret tt
  else
    modifyNode this (set_childrenAreShared false) >>
    (let* l := getList (children_ n) in
     let* p := make_shared_list l in
     modifyNode this (set_children p)).

Definition push_back (p : addr) (x : addr) : M unit :=
  let* l := getList p in setList p (l ++ [x]).

Definition appendChild (this child : addr) : M unit :=
  ensureUnsealed this >>
  cloneChildrenIfShared this >>
  (let* n := getNode this in
   let nonConstChildren := children_ n in
   push_back nonConstChildren child).

(** A [const SharedShadowNode &]: the shared pointer referred to is
    either an object of the caller's that no children list holds
    ([Detached], with the node it points to), or element [i] of the
    children list at [p] ([Element]), as in
    [replaceChild(node.getChildren()[0], ...)].  What it reads is looked
    up in the heap each time, so a write to that element changes it.
    Lists are never freed here; that the object referred to outlives the
    call is the caller's obligation in C++. *)
Inductive SharedShadowNodeRef : Type :=
| Detached (a : addr)
| Element (p : addr) (i : nat).

Definition readRef (h : Heap) (r : SharedShadowNodeRef) : option addr :=
  match r with
  | Detached a => Some a
  | Element p i =>
      match listStore h !! p with Some l => l !! i | None => None end
  end.

Definition deref (r : SharedShadowNodeRef) : M addr :=
  λ h, match readRef h r with Some a => Ok a h | None => Stuck end.

(** [std::replace(first, last, old_value, new_value)] over the list at
    [p], [first] being the position reached and [count] the number of
    elements left: the loop compares each element with [old_value] and,
    when they are equal, assigns [new_value] to it.  Both values are
    taken by reference and read again at every element. *)
Fixpoint std_replace (p : addr) (first count : nat)
    (old_value new_value : SharedShadowNodeRef) : M unit :=
  match count with
  | O => ret tt
  | S count' =>
      let* l := getList p in
      match l !! first with
      | None => λ _, Stuck
      | Some x =>
          let* o := deref old_value in
          (if decide (x = o)
           then let* v := deref new_value in setList p (<[first := v]> l)
           else ret tt) >>
          std_replace p (S first) count' old_value new_value
      end
  end.

(** Conversion of an [int] to [size_t] (64 bits), as the comparison
    [suggestedIndex < nonConstChildren->size()] and the call [at] do. *)
Definition to_size_t (z : Z) : Z := (z mod 2 ^ 64)%Z.

Definition replaceChild (this : addr)
    (oldChild newChild : SharedShadowNodeRef) (suggestedIndex : Z) : M unit :=
  ensureUnsealed this >>
  cloneChildrenIfShared this >>
  (let* n := getNode this in
   let nonConstChildren := children_ n in
   let* l := getList nonConstChildren in
   let scan := std_replace nonConstChildren 0 (length l) oldChild newChild in
   if bool_decide (suggestedIndex ≠ (-1)%Z)
      && bool_decide (to_size_t suggestedIndex < Z.of_nat (length l))%Z
   then
     match l !! Z.to_nat (to_size_t suggestedIndex) with
     | None => λ _, Stuck
     | Some x =>
         let* o := deref oldChild in
         if decide (x = o)
         then
           let* v := deref newChild in
           setList nonConstChildren
             (<[Z.to_nat (to_size_t suggestedIndex) := v]> l)
         else scan
     end
   else scan).

Definition setLocalData (this : addr) (localData : option addr) : M unit :=
  ensureUnsealed this >>
  modifyNode this (set_localData localData).

Definition setMounted (this : addr) (mounted : bool) : M unit :=
  let* n := getNode this in
  match eventEmitter_ n with
  | Some e => EventEmitter_setEnabled e mounted
  | None => λ _, Stuck
  end.

(** ** constructAncestorPath *)

(** [this->constructAncestorPath(ancestorShadowNode, ancestors)].  The
    method is [const]: it reads the heap and threads the caller's vector
    [ancestors].  [None] when the recursion budget runs out or a pointer
    dangles.  [search_children] is the loop over
    [*ancestorShadowNode.children_], [search] being the recursive call. *)
Fixpoint search_children
    (search : addr → list addr → option (bool * list addr))
    (ancestorShadowNode : addr) (l : list addr) (ancestors : list addr)
    : option (bool * list addr) :=
  match l with
  | [] => Some (false, ancestors)
  | childShadowNode :: rest =>
      match search childShadowNode ancestors with
      | None => None
      | Some (true, ancestors') =>
          Some (true, ancestors' ++ [ancestorShadowNode])
      | Some (false, ancestors') =>
          search_children search ancestorShadowNode rest ancestors'
      end
  end.

Fixpoint constructAncestorPath (fuel : nat) (h : Heap)
    (this ancestorShadowNode : addr) (ancestors : list addr)
    : option (bool * list addr) :=
  match fuel with
  | O => None
  | S fuel' =>
      if decide (this = ancestorShadowNode) then Some (true, ancestors)
      else
        match nodeStore h !! ancestorShadowNode with
        | None => None
        | Some a =>
            match listStore h !! children_ a with
            | None => None
            | Some l =>
                search_children (constructAncestorPath fuel' h this)
                  ancestorShadowNode l ancestors
            end
        end
  end.

(** ** Observations and well-formedness *)

(** The children sequence a node designates, when both pointers are live. *)
Definition childrenOf (h : Heap) (a : addr) : option (list addr) :=
  match nodeStore h !! a with
  | Some n => listStore h !! children_ n
  | None => None
  end.

(** Every node's children pointer designates a list object (shared
    pointers never dangle). *)
Definition heap_wf (h : Heap) : bool :=
  bool_decide
    (map_Forall (λ _ n, is_Some (listStore h !! children_ n)) (nodeStore h)).


(** The fragment with every override absent. *)
Definition emptyFragment : ShadowNodeFragment :=
  mkFragment 0 0 None None None None.

(** The state after [cloneChildrenIfShared] took its copy. *)
Definition unshared (h : Heap) (this : addr) (n : ShadowNode) (l : list addr)
    : Heap :=
  let p := fresh (dom (listStore h)) in
  mkHeap (<[this := set_children p (set_childrenAreShared false n)]>
            (nodeStore h))
         (<[p := l]> (listStore h)) (propsStore h) (emitterStore h).

(** [wf_tree d h a]: the nodes reachable from [a] through children are
    live objects with live payloads and children lists, and lie at most
    [d] levels deep (so the children relation below [a] has no cycle). *)
Fixpoint wf_tree (d : nat) (h : Heap) (a : addr) : bool :=
  match d with
  | O => false
  | S d' =>
      match nodeStore h !! a with
      | None => false
      | Some n =>
          match propsStore h !! props_ n, listStore h !! children_ n with
          | Some _, Some l => forallb (wf_tree d' h) l
          | _, _ => false
          end
      end
  end.

(** [reachable h a n]: [n] is [a] or a descendant of [a]. *)
Inductive reachable (h : Heap) : addr → addr → Prop :=
| reach_self a : reachable h a a
| reach_child a c n l :
    childrenOf h a = Some l → c ∈ l → reachable h c n → reachable h a n.

Definition node_sealed (h : Heap) (a : addr) : bool :=
  match nodeStore h !! a with Some n => sealed_ n | None => false end.

Definition payload_sealed (h : Heap) (a : addr) : bool :=
  match nodeStore h !! a with
  | Some n => default false (propsStore h !! props_ n)
  | None => false
  end.

(** What holds of a node sealed by [sealRecursive]: its payload and its
    children are sealed too. *)
Definition sealed_below (h : Heap) (a : addr) : Prop :=
  node_sealed h a = true →
  payload_sealed h a = true ∧
  Forall (λ c, node_sealed h c = true) (default [] (childrenOf h a)).

(** [sealed_closed_tree d h a]: every node of the tree below [a] (at most
    [d] levels deep) that is sealed already has a sealed payload and
    only sealed children. *)
Fixpoint sealed_closed_tree (d : nat) (h : Heap) (a : addr) : bool :=
  match d with
  | O => false
  | S d' =>
      match nodeStore h !! a with
      | None => false
      | Some n =>
          match listStore h !! children_ n with
          | None => false
          | Some l =>
              (if sealed_ n
               then payload_sealed h a && forallb (node_sealed h) l
               else true)
              && forallb (sealed_closed_tree d' h) l
          end
      end
  end.

(** [seal_ext h h']: [h'] is [h] with more nodes and payloads sealed and
    nothing else changed. *)
Definition seal_ext (h h' : Heap) : Prop :=
  listStore h' = listStore h ∧ emitterStore h' = emitterStore h ∧
  (∀ a, match nodeStore h !! a with
        | Some n => ∃ b, nodeStore h' !! a = Some (set_sealed b n) ∧
                         (sealed_ n = true → b = true)
        | None => nodeStore h' !! a = None
        end) ∧
  (∀ p, match propsStore h !! p with
        | Some b => ∃ b', propsStore h' !! p = Some b' ∧ (b = true → b' = true)
        | None => propsStore h' !! p = None
        end).

(** [ancestor_chain h n path a]: [path] lists the ancestors of [n] from
    its parent up to [a]: [n] is a child of the first, each is a child of
    the next, the last is [a]; with no ancestor at all, [n] is [a]. *)
Fixpoint ancestor_chain (h : Heap) (n : addr) (path : list addr) (a : addr)
    : Prop :=
  match path with
  | [] => n = a
  | p :: rest =>
      (∃ l, childrenOf h p = Some l ∧ n ∈ l) ∧ ancestor_chain h p rest a
  end.

(** ** The replacement the specification describes *)


(** ** A small tree

    Root [R] at address 1 with children [C1] (2) and [C2] (3), a spare
    node [C3] (4); list 1 is [R]'s children, list 2 the empty list the
    leaves share. *)
Definition ex_node (t : Z) (p : addr) (c : addr) : ShadowNode :=
  mkNode false t 1 p (Some p) c None (Some 1%positive) true 1.

Definition ex_heap : Heap :=
  mkHeap
    (list_to_map [(1, ex_node 1 1 1); (2, ex_node 2 2 2);
                  (3, ex_node 3 3 2); (4, ex_node 4 4 2)]%positive)
    (list_to_map [(1, [2; 3]); (2, [])]%positive)
    (list_to_map [(1, false); (2, false); (3, false); (4, false)]%positive)
    (list_to_map [(1, false); (2, false); (3, false); (4, false)]%positive).

(** The heap of a result, for stating what a run produced. *)
Definition heap_of {A} (r : result A) : option Heap :=
  match r with Ok _ h => Some h | Fault h => Some h | Stuck => None end.

(** The heap a run leaves behind ([h] itself when it is stuck). *)
Definition run {A} (m : M A) (h : Heap) : Heap := default h (heap_of (m h)).

(** Every element equal to [old_value] replaced by [new_value]. *)
Fixpoint replace_all (l : list addr) (old_value new_value : addr) : list addr :=
  match l with
  | [] => []
  | x :: rest =>
      (if decide (x = old_value) then new_value else x)
        :: replace_all rest old_value new_value
  end.

(** The list [replaceChild] leaves behind, as a function of the list it
    found and of the values its arguments read, when [oldChild] does not
    refer to an element of the list that is scanned. *)
Definition replaced_children (l : list addr) (oldChild newChild : addr)
    (suggestedIndex : Z) : list addr :=
  if bool_decide (suggestedIndex ≠ (-1)%Z)
     && bool_decide (to_size_t suggestedIndex < Z.of_nat (length l))%Z
  then
    match l !! Z.to_nat (to_size_t suggestedIndex) with
    | Some x =>
        if decide (x = oldChild)
        then <[Z.to_nat (to_size_t suggestedIndex) := newChild]> l
        else replace_all l oldChild newChild
    | None => l
    end
  else replace_all l oldChild newChild.

(** [own_element n r]: the position [r] refers to in the children list of
    [n], when [n] owns that list (shared flag clear), so that
    [replaceChild] scans the very list [r] refers into. *)
Definition own_element (n : ShadowNode) (r : SharedShadowNodeRef)
    : option nat :=
  if childrenAreShared_ n then None
  else match r with
       | Element q j => if decide (q = children_ n) then Some j else None
       | Detached _ => None
       end.

(** How far a scan over the list at [p] compares with the value
    [old_value] had at the start: up to and including the element
    [old_value] refers to when that element lies in the list itself (the
    assignment there changes what the reference reads), to the end
    otherwise. *)
Definition scan_limit (p : addr) (len : nat) (old_value : SharedShadowNodeRef)
    : nat :=
  match old_value with
  | Element q j => if decide (q = p) then S j else len
  | Detached _ => len
  end.

Definition replace_limit (n : ShadowNode) (len : nat)
    (oldChild : SharedShadowNodeRef) : nat :=
  match own_element n oldChild with Some j => S j | None => len end.

(** The first [limit] elements with [old_value] replaced, the rest as
    they are. *)
Definition replace_upto (l : list addr) (old_value new_value : addr)
    (limit : nat) : list addr :=
  replace_all (take limit l) old_value new_value ++ drop limit l.

(** The list [replaceChild] leaves behind in general: [limit] is how far
    the scan compares with the value [oldChild] read at the start. *)
Definition replaced_children_upto (l : list addr) (oldChild newChild : addr)
    (suggestedIndex : Z) (limit : nat) : list addr :=
  if bool_decide (suggestedIndex ≠ (-1)%Z)
     && bool_decide (to_size_t suggestedIndex < Z.of_nat (length l))%Z
  then
    match l !! Z.to_nat (to_size_t suggestedIndex) with
    | Some x =>
        if decide (x = oldChild)
        then <[Z.to_nat (to_size_t suggestedIndex) := newChild]> l
        else replace_upto l oldChild newChild limit
    | None => l
    end
  else replace_upto l oldChild newChild limit.

(** The value of a reference while the list at [p] holds [cur] and every
    other list is as in [h]. *)
Definition resolve (h : Heap) (p : addr) (cur : list addr)
    (r : SharedShadowNodeRef) : option addr :=
  match r with
  | Detached a => Some a
  | Element q i => if decide (q = p) then cur !! i else readRef h r
  end.

(** The scan of [std_replace] as a function of the list it runs over. *)
Fixpoint scan (h : Heap) (p : addr) (old_value new_value : SharedShadowNodeRef)
    (first count : nat) (cur : list addr) : option (list addr) :=
  match count with
  | O => Some cur
  | S count' =>
      match cur !! first, resolve h p cur old_value with
      | Some x, Some o =>
          if decide (x = o)
          then match resolve h p cur new_value with
               | Some v =>
                   scan h p old_value new_value (S first) count'
                     (<[first := v]> cur)
               | None => None
               end
          else scan h p old_value new_value (S first) count' cur
      | _, _ => None
      end
  end.

(** States of the small tree used below: [C1] sealed by [seal()]; [C1]
    sealed by [sealRecursive()]; the root sealed by [seal()] alone; a
    clone [R'] of the root at address 5 made with the empty fragment;
    the same with a fragment overriding the event emitter; the root
    after [appendChild(C1)], so that [C1] occurs twice among its
    children. *)
Definition ex_leaf_sealed : Heap := run (seal 2) ex_heap.
Definition ex_leaf_sealed_rec : Heap := run (sealRecursive 2 2) ex_heap.
Definition ex_root_sealed : Heap := run (seal 1) ex_heap.
Definition ex_cloned : Heap :=
  run (construct_from_source 5 1 emptyFragment) ex_heap.
Definition ex_emitter_fragment : ShadowNodeFragment :=
  mkFragment 0 0 None (Some 4%positive) None None.
Definition ex_cloned_emitter : Heap :=
  run (construct_from_source 5 1 ex_emitter_fragment) ex_heap.
Definition ex_duplicate : Heap := run (appendChild 1 2) ex_heap.

(** ** Invariants of the two traversals *)

(** What one search for [this] below [a] may answer, starting from the
    vector [out]. *)
Definition search_answer (h : Heap) (this a : addr) (out : list addr)
    (r : option (bool * list addr)) : Prop :=
  ∃ b out', r = Some (b, out') ∧
    (b = true → ∃ path, out' = out ++ path ∧
                 ancestor_chain h this path a ∧ (this = a → path = [])) ∧
    (b = false → out' = out ∧ ¬ reachable h a this).

(** [sealed_on P h]: every node satisfying [P] that is sealed is sealed
    all the way down.  [P] leaves out the nodes whose children are still
    being visited. *)
Definition sealed_on (P : addr → Prop) (h : Heap) : Prop :=
  ∀ a, P a → sealed_below h a.

(** What [sealRecursive] with budget [d] achieves. *)
Definition seals_from (d : nat) : Prop :=
  ∀ a h (P : addr → Prop), wf_tree d h a = true → sealed_on P h →
    ∃ h', sealRecursive d a h = Ok tt h' ∧ seal_ext h h' ∧ sealed_on P h' ∧
          node_sealed h' a = true.

(** ** The rest of [ABI34_0_0ShadowNode.cpp] *)

(** [emptySharedShadowNodeSharedList()]: a function-local static, made
    by [std::make_shared] the first time the function runs and returned
    ever after.  The static is passed explicitly: [None] before the first
    call, the address of the list afterwards; the function answers the
    pointer and the new value of the static. *)
Definition emptySharedShadowNodeSharedList (static_ : option addr)
    : M (addr * option addr) :=
  match static_ with
  | Some p => ret (p, Some p)
  | None => let* p := make_shared_list [] in ret (p, Some p)
  end.

(** The member initialisers of
    [ShadowNode(const ShadowNodeFragment &fragment,
                const ShadowNodeCloneFunction &cloneFunction)],
    given the pointer [fragment.children ?: emptySharedShadowNodeSharedList()]
    evaluated to.  [localData_] has no initialiser: it is a null shared
    pointer.  [None] for a fragment without props: [assert(props_)]
    stops the program where assertions are compiled in, and a node
    without payload, which is what is left otherwise, is outside this
    model. *)
Definition ShadowNode_from_fragment (fragment : ShadowNodeFragment)
    (cloneFunction : option positive) (children_ptr : addr)
    : option ShadowNode :=
  match props fragment with
  | None => None
  | Some p =>
      Some {| sealed_ := false;
              tag_ := tag fragment;
              rootTag_ := rootTag fragment;
              props_ := p;
              eventEmitter_ := eventEmitter fragment;
              children_ := children_ptr;
              localData_ := None;
              cloneFunction_ := cloneFunction;
              childrenAreShared_ := true;
              revision_ := 1 |}
  end.

(** The constructor run on storage [this] that holds no object yet; it
    answers the new value of the static.  Without props there is no
    result ([Stuck]). *)
Definition construct_from_fragment (static_ : option addr) (this : addr)
    (fragment : ShadowNodeFragment) (cloneFunction : option positive)
    : M (option addr) :=
  λ h, match nodeStore h !! this with
       | Some _ => Stuck
       | None =>
           (let* cs := match children fragment with
                       | Some c => ret (c, static_)
                       | None => emptySharedShadowNodeSharedList static_
                       end in
            match ShadowNode_from_fragment fragment cloneFunction cs.1 with
            | None => λ _, Stuck
            | Some n => λ h', Ok cs.2 (set_nodeStore <[this := n]> h')
            end) h
       end.

(** ** The remaining getters *)

Definition getProps (this : addr) : M addr :=
  let* n := getNode this in ret (props_ n).

Definition getTag (this : addr) : M Z :=
  let* n := getNode this in ret (tag_ n).

Definition getRootTag (this : addr) : M Z :=
  let* n := getNode this in ret (rootTag_ n).

Definition getLocalData (this : addr) : M (option addr) :=
  let* n := getNode this in ret (localData_ n).

(** ** [ABI34_0_0RCTComponent.h] *)

(** An [NSNumber *] is nil or a number holding an [NSInteger];
    [integerValue] sent to nil answers 0. *)
Definition integerValue (number : option Z) : Z := default 0%Z number.

(** [ReactTag.integerValue % 10 == 1]; [%] on C integers is the
    remainder of the division that truncates towards zero. *)
Definition ABI34_0_0RCTIsReactABI34_0_0RootView (ReactABI34_0_0Tag : option Z)
    : bool :=
  bool_decide (Z.rem (integerValue ReactABI34_0_0Tag) 10 = 1)%Z.

(** ** Notions used by the further properties *)

(** The static holds either nothing or the address of an empty list. *)
Definition static_valid (h : Heap) (static_ : option addr) : Prop :=
  match static_ with
  | None => True
  | Some p => listStore h !! p = Some []
  end.

(** A chain of clones: each fragment in turn applied to the latest node. *)
Definition clone_chain (source : ShadowNode)
    (fragments : list ShadowNodeFragment) : ShadowNode :=
  foldl ShadowNode_from_source source fragments.

(** The node the first constructor builds around the children pointer [c]. *)
Definition fresh_node (fragment : ShadowNodeFragment)
    (cloneFunction : option positive) (p c : addr) : ShadowNode :=
  mkNode false (tag fragment) (rootTag fragment) p (eventEmitter fragment) c
         None cloneFunction true 1.

(** A fragment with props and local data but no children, and the small
    tree after [C3] was appended to [C2], so that [C3] lies two levels
    below the root. *)
Definition ex_fragment : ShadowNodeFragment :=
  mkFragment 0 7 (Some 1%positive) None None (Some 9%positive).
Definition ex_deep : Heap := run (appendChild 3 4) ex_heap.

(** The small tree after a first node was constructed without children:
    the static empty list exists, at address 3. *)
Definition ex_constructed : Heap :=
  run (construct_from_fragment None 6 ex_fragment None) ex_heap.

(** [touched_within R h h']: between [h] and [h'] only nodes satisfying
    [R], and only payloads of such nodes, may differ. *)
Definition touched_within (R : addr → Prop) (h h' : Heap) : Prop :=
  (∀ x, ¬ R x → nodeStore h' !! x = nodeStore h !! x) ∧
  (∀ p, propsStore h' !! p = propsStore h !! p ∨
        ∃ x n, R x ∧ nodeStore h !! x = Some n ∧ props_ n = p).

(** What [sealRecursive] with budget [d] leaves alone. *)
Definition touches_from (d : nat) : Prop :=
  ∀ a h, wf_tree d h a = true →
    ∃ h', sealRecursive d a h = Ok tt h' ∧ seal_ext h h' ∧
          touched_within (reachable h a) h h'.



(** * Theorems *)

(** ** Primitive steps *)

Lemma ensureUnsealed_unsealed h this n :
  nodeStore h !! this = Some n → sealed_ n = false →
  ensureUnsealed this h = Ok tt h.
Proof. intros Hn Hs. unfold ensureUnsealed. by rewrite Hn, Hs. Qed.

Lemma ensureUnsealed_sealed h this n :
  nodeStore h !! this = Some n → sealed_ n = true →
  ensureUnsealed this h = Fault h.
Proof. intros Hn Hs. unfold ensureUnsealed. by rewrite Hn, Hs. Qed.

Lemma cloneChildrenIfShared_shared h this n l :
  nodeStore h !! this = Some n → childrenAreShared_ n = true →
  listStore h !! children_ n = Some l →
  cloneChildrenIfShared this h = Ok tt (unshared h this n l).
Proof.
  intros Hn Hs Hl.
  unfold cloneChildrenIfShared, bind, getNode, modifyNode, getList,
    make_shared_list. rewrite Hn, Hs. simpl. rewrite Hn. simpl.
  rewrite Hl. simpl. rewrite lookup_insert_eq.
  unfold unshared, set_nodeStore, set_listStore. simpl.
  by rewrite insert_insert_eq.
Qed.

Lemma cloneChildrenIfShared_owned h this n :
  nodeStore h !! this = Some n → childrenAreShared_ n = false →
  cloneChildrenIfShared this h = Ok tt h.
Proof.
  intros Hn Hs. unfold cloneChildrenIfShared, bind, getNode.
  by rewrite Hn, Hs.
Qed.

Lemma fresh_list_unused (h : Heap) :
  listStore h !! fresh (dom (listStore h)) = None.
Proof. apply not_elem_of_dom, is_fresh. Qed.

Lemma fresh_list_ne (h : Heap) p (l : list addr) :
  listStore h !! p = Some l → fresh (dom (listStore h)) ≠ p.
Proof. intros Hp Heq. subst p. by rewrite fresh_list_unused in Hp. Qed.

(** Whatever the flag, after [cloneChildrenIfShared] the node designates
    a list with the same contents. *)
Lemma cloneChildrenIfShared_any h this n l :
  nodeStore h !! this = Some n → listStore h !! children_ n = Some l →
  ∃ h1 n1, cloneChildrenIfShared this h = Ok tt h1 ∧
    nodeStore h1 !! this = Some n1 ∧ listStore h1 !! children_ n1 = Some l ∧
    sealed_ n1 = sealed_ n ∧
    (childrenAreShared_ n = true → h1 = unshared h this n l) ∧
    (childrenAreShared_ n = false → h1 = h ∧ n1 = n).
Proof.
  intros Hn Hl. destruct (childrenAreShared_ n) eqn:Hs.
  - exists (unshared h this n l), (set_children (fresh (dom (listStore h)))
                                 (set_childrenAreShared false n)).
    split; [by apply cloneChildrenIfShared_shared|].
    unfold unshared; simpl. rewrite !lookup_insert_eq. done.
  - exists h, n. split; [by eapply cloneChildrenIfShared_owned|]. done.
Qed.

Lemma heap_wf_lookup h a n :
  heap_wf h = true → nodeStore h !! a = Some n →
  is_Some (listStore h !! children_ n).
Proof.
  unfold heap_wf. intros Hwf Hn. apply bool_decide_eq_true in Hwf.
  exact (Hwf a n Hn).
Qed.

Lemma replace_all_fmap l old_value new_value :
  replace_all l old_value new_value
  = (λ x, if decide (x = old_value) then new_value else x) <$> l.
Proof. induction l as [|x l IH]; simpl; [done|]. by rewrite IH. Qed.

Lemma replace_all_absent l old_value new_value :
  old_value ∉ l → replace_all l old_value new_value = l.
Proof.
  induction l as [|x l IH]; simpl; [done|].
  intros Hnin. apply not_elem_of_cons in Hnin as [Hne Hnin].
  rewrite IH by done. by rewrite decide_False by congruence.
Qed.

Lemma replace_upto_lookup l old_value new_value limit i :
  replace_upto l old_value new_value limit !! i =
    if decide (i < limit)
    then (λ x, if decide (x = old_value) then new_value else x) <$> l !! i
    else l !! i.
Proof.
  unfold replace_upto. rewrite replace_all_fmap.
  destruct (decide (i < limit)) as [Hlt|Hge].
  - destruct (decide (i < length l)) as [Hil|Hil].
    + rewrite lookup_app_l by (rewrite length_fmap, length_take; lia).
      by rewrite list_lookup_fmap, lookup_take_lt.
    + rewrite (proj2 (lookup_ge_None l i)) by lia. simpl.
      apply lookup_ge_None.
      rewrite length_app, length_fmap, length_take, length_drop. lia.
  - rewrite lookup_app_r by (rewrite length_fmap, length_take; lia).
    rewrite length_fmap, length_take, lookup_drop.
    destruct (decide (limit ≤ length l)) as [Hll|Hll].
    + f_equal. lia.
    + rewrite (proj2 (lookup_ge_None l i)) by lia.
      apply lookup_ge_None. lia.
Qed.


Lemma replace_upto_full l old_value new_value limit :
  length l ≤ limit →
  replace_upto l old_value new_value limit = replace_all l old_value new_value.
Proof.
  intros Hle. unfold replace_upto.
  by rewrite take_ge, drop_ge, app_nil_r by done.
Qed.

Lemma replaced_children_upto_full l oldChild newChild suggestedIndex limit :
  length l ≤ limit →
  replaced_children_upto l oldChild newChild suggestedIndex limit
  = replaced_children l oldChild newChild suggestedIndex.
Proof.
  intros Hle. unfold replaced_children_upto, replaced_children.
  by rewrite replace_upto_full.
Qed.

Lemma replaced_children_absent l oldChild newChild suggestedIndex :
  oldChild ∉ l → replaced_children l oldChild newChild suggestedIndex = l.
Proof.
  intros Hnin. unfold replaced_children.
  destruct (_ && _); [|by apply replace_all_absent].
  destruct (l !! _) as [x|] eqn:Hx; [|done].
  destruct (decide (x = oldChild)) as [->|]; [|by apply replace_all_absent].
  exfalso. apply Hnin. by eapply list_elem_of_lookup_2.
Qed.




(** ** References and the scan of [std::replace] *)

Lemma set_listStore_id (h : Heap) p l :
  listStore h !! p = Some l → set_listStore <[p := l]> h = h.
Proof.
  intros Hl. destruct h as [ns ls ps es]. unfold set_listStore; simpl in *.
  by rewrite insert_id.
Qed.

Lemma set_listStore_twice (h : Heap) p l1 l2 :
  set_listStore <[p := l2]> (set_listStore <[p := l1]> h)
  = set_listStore <[p := l2]> h.
Proof. unfold set_listStore; simpl. by rewrite insert_insert_eq. Qed.

Lemma readRef_resolve h p cur r :
  listStore h !! p = Some cur → readRef h r = resolve h p cur r.
Proof.
  intros Hp. destruct r as [a|q i]; simpl; [done|].
  destruct (decide (q = p)) as [->|]; [by rewrite Hp|done].
Qed.

Lemma resolve_set_listStore h p c cur r :
  resolve (set_listStore <[p := c]> h) p cur r = resolve h p cur r.
Proof.
  destruct r as [a|q i]; simpl; [done|].
  destruct (decide (q = p)); [done|]. by rewrite lookup_insert_ne.
Qed.

Lemma scan_set_listStore h p c0 old_value new_value first count cur :
  scan (set_listStore <[p := c0]> h) p old_value new_value first count cur
  = scan h p old_value new_value first count cur.
Proof.
  revert first cur. induction count as [|count IH]; intros first cur; [done|].
  simpl. rewrite !resolve_set_listStore.
  destruct (cur !! first); [|done].
  destruct (resolve h p cur old_value); [|done].
  destruct (decide _); [|apply IH].
  destruct (resolve h p cur new_value); [|done]. apply IH.
Qed.

(** The loop on the heap and the scan on the list agree. *)
Lemma std_replace_scan p old_value new_value count :
  ∀ first h cur, listStore h !! p = Some cur →
    std_replace p first count old_value new_value h =
      match scan h p old_value new_value first count cur with
      | Some cur' => Ok tt (set_listStore <[p := cur']> h)
      | None => Stuck
      end.
Proof.
  induction count as [|count IH]; intros first h cur Hp; simpl.
  - unfold ret. by rewrite set_listStore_id.
  - unfold bind at 1. unfold getList. rewrite Hp.
    destruct (cur !! first) as [x|]; [|done].
    unfold bind at 1. unfold deref at 1.
    rewrite (readRef_resolve h p cur old_value Hp).
    destruct (resolve h p cur old_value) as [o|]; [|done].
    unfold bind at 1. destruct (decide (x = o)) as [->|Hne].
    + unfold bind at 1. unfold deref.
      rewrite (readRef_resolve h p cur new_value Hp).
      destruct (resolve h p cur new_value) as [v|]; [|done].
      unfold setList. rewrite Hp.
      rewrite (IH (S first) _ (<[first := v]> cur))
        by (simpl; apply lookup_insert_eq).
      rewrite scan_set_listStore.
      destruct (scan h p old_value new_value (S first) count _); [|done].
      by rewrite set_listStore_twice.
    + unfold ret. by apply IH.
Qed.

Section scan.
Variable h : Heap.
Variable p : addr.
Variables old_value new_value : SharedShadowNodeRef.

Lemma scan_app c1 c2 first cur :
  scan h p old_value new_value first (c1 + c2) cur
  = scan h p old_value new_value first c1 cur
      ≫= scan h p old_value new_value (first + c1) c2.
Proof.
  revert first cur. induction c1 as [|c1 IH]; intros first cur; simpl.
  - by rewrite Nat.add_0_r.
  - replace (first + S c1) with (S first + c1) by lia.
    destruct (cur !! first); [|done].
    destruct (resolve h p cur old_value); [|done].
    destruct (decide _); [|apply IH].
    destruct (resolve h p cur new_value); [|done]. apply IH.
Qed.

(** Once both references read the same value the scan changes nothing. *)
Lemma scan_fixed v count :
  ∀ first cur, first + count ≤ length cur →
    resolve h p cur old_value = Some v → resolve h p cur new_value = Some v →
    scan h p old_value new_value first count cur = Some cur.
Proof.
  induction count as [|count IH]; intros first cur Hlen Ho Hn; [done|].
  simpl. destruct (lookup_lt_is_Some_2 cur first ltac:(lia)) as [x Hx].
  rewrite Hx, Ho. destruct (decide (x = v)) as [->|]; [|apply IH; [lia|done..]].
  rewrite Hn, list_insert_id by done. apply IH; [lia|done..].
Qed.

(** Without a match nothing is written and [new_value] is never read. *)
Lemma scan_absent o count :
  ∀ first cur, first + count ≤ length cur →
    resolve h p cur old_value = Some o → o ∉ cur →
    scan h p old_value new_value first count cur = Some cur.
Proof.
  induction count as [|count IH]; intros first cur Hlen Ho Hnin; [done|].
  simpl. destruct (lookup_lt_is_Some_2 cur first ltac:(lia)) as [x Hx].
  rewrite Hx, Ho. destruct (decide (x = o)) as [->|].
  - exfalso. apply Hnin. by eapply list_elem_of_lookup_2.
  - apply IH; [lia|done..].
Qed.

Lemma resolve_insert_other cur i v r k :
  r = Element p k → i ≠ k →
  resolve h p (<[i := v]> cur) r = resolve h p cur r.
Proof.
  intros -> Hne. simpl. destruct (decide (p = p)); [|done].
  by rewrite list_lookup_insert_ne.
Qed.

Lemma resolve_insert_foreign cur i v r :
  (∀ k, r ≠ Element p k) →
  resolve h p (<[i := v]> cur) r = resolve h p cur r.
Proof.
  intros Hne. destruct r as [a|q k]; simpl; [done|].
  destruct (decide (q = p)) as [->|]; [|done]. by destruct (Hne k).
Qed.

(** Writing [v] keeps a reference that reads [v] reading [v]. *)
Lemma resolve_insert_same cur i v r :
  i < length cur → resolve h p cur r = Some v →
  resolve h p (<[i := v]> cur) r = Some v.
Proof.
  intros Hi Hr. destruct r as [a|q k]; simpl in *; [done|].
  destruct (decide (q = p)); [|done].
  destruct (decide (i = k)) as [->|Hne].
  - by apply list_lookup_insert_eq.
  - by rewrite list_lookup_insert_ne.
Qed.

(** A reference that reads [v] keeps reading [v] when every position
    holding [v] still holds it. *)
Lemma resolve_preserved cur c v r :
  (∀ k, cur !! k = Some v → c !! k = Some v) →
  resolve h p cur r = Some v → resolve h p c r = Some v.
Proof.
  intros Hkeep Hr. destruct r as [a|q k]; simpl in *; [done|].
  destruct (decide (q = p)); [|done]. by apply Hkeep.
Qed.

(** A stretch of the scan that does not pass the element [old_value]
    refers to: there every element equal to [o] becomes [nv]. *)
Lemma scan_segment o nv count :
  ∀ first cur, first + count ≤ length cur →
    resolve h p cur old_value = Some o → resolve h p cur new_value = Some nv →
    (∀ j, old_value = Element p j → ¬ (first ≤ j < first + count)) →
    ∃ cur', scan h p old_value new_value first count cur = Some cur' ∧
      length cur' = length cur ∧
      ∀ i, cur' !! i =
           if decide (first ≤ i < first + count)
           then (λ x, if decide (x = o) then nv else x) <$> cur !! i
           else cur !! i.
Proof.
  induction count as [|count IH]; intros first cur Hlen Ho Hn Hout.
  - exists cur. split; [done|]. split; [done|]. intros i.
    rewrite decide_False by lia. done.
  - simpl. destruct (lookup_lt_is_Some_2 cur first ltac:(lia)) as [x Hx].
    rewrite Hx, Ho.
    assert (Hout' : ∀ j, old_value = Element p j →
                         ¬ (S first ≤ j < S first + count)).
    { intros j Hj Hr. apply (Hout j Hj). lia. }
    destruct (decide (x = o)) as [->|Hne].
    + rewrite Hn.
      destruct (IH (S first) (<[first := nv]> cur)) as (cur' & Hs & Hl & Hi).
      * rewrite length_insert. lia.
      * destruct old_value as [a|q k] eqn:Hov; [done|].
        destruct (decide (q = p)) as [->|Hq].
        -- rewrite (resolve_insert_other cur first nv _ k eq_refl); [done|].
           intros ->. apply (Hout k eq_refl). lia.
        -- rewrite resolve_insert_foreign; [done|]. congruence.
      * apply resolve_insert_same; [lia|done].
      * done.
      * exists cur'. split; [done|]. rewrite Hl, length_insert.
        split; [done|]. intros i. rewrite Hi.
        destruct (decide (i = first)) as [->|Hif].
        -- rewrite decide_False by lia. rewrite decide_True by lia.
           rewrite list_lookup_insert_eq by lia. rewrite Hx. simpl.
           by rewrite decide_True.
        -- rewrite list_lookup_insert_ne by done.
           destruct (decide (S first ≤ i < S first + count)).
           ++ by rewrite decide_True by lia.
           ++ by rewrite decide_False by lia.
    + destruct (IH (S first) cur) as (cur' & Hs & Hl & Hi); [lia|done..|].
      exists cur'. split; [done|]. split; [done|]. intros i. rewrite Hi.
      destruct (decide (i = first)) as [->|Hif].
      * rewrite decide_False by lia. rewrite decide_True by lia.
        rewrite Hx. simpl. by rewrite decide_False.
      * destruct (decide (S first ≤ i < S first + count)).
        -- by rewrite decide_True by lia.
        -- by rewrite decide_False by lia.
Qed.

(** The whole scan. *)
Lemma scan_all o nv l :
  resolve h p l old_value = Some o → resolve h p l new_value = Some nv →
  ∃ l', scan h p old_value new_value 0 (length l) l = Some l' ∧
    length l' = length l ∧
    ∀ i, l' !! i =
         if decide (i < scan_limit p (length l) old_value)
         then (λ x, if decide (x = o) then nv else x) <$> l !! i
         else l !! i.
Proof.
  intros Ho Hn.
  assert (Hcase : (∃ j, old_value = Element p j) ∨
                  ¬ (∃ j, old_value = Element p j)).
  { destruct old_value as [a|q j] eqn:Hov.
    - right. by intros [j Hj].
    - destruct (decide (q = p)) as [->|Hq].
      + left. by exists j.
      + right. intros [k Hk]. congruence. }
  destruct Hcase as [[j Hj]|Hfar].
  - (* [old_value] is element [j] of the list itself *)
    assert (Hoj : l !! j = Some o).
    { rewrite Hj in Ho. simpl in Ho. by rewrite decide_True in Ho. }
    pose proof (lookup_lt_Some _ _ _ Hoj) as Hjlt.
    destruct (scan_segment o nv j 0 l) as (c1 & Hs1 & Hl1 & Hi1);
      [lia|done|done| |].
    { intros k Hk. rewrite Hj in Hk. injection Hk as <-. lia. }
    assert (Hc1j : c1 !! j = Some o).
    { rewrite Hi1, decide_False by lia. done. }
    assert (Ho1 : resolve h p c1 old_value = Some o).
    { rewrite Hj. simpl. by rewrite decide_True. }
    assert (Hn1 : resolve h p c1 new_value = Some nv).
    { apply (resolve_preserved l c1 nv new_value); [|done].
      intros k Hk. rewrite Hi1, Hk.
      destruct (decide (0 ≤ k < 0 + j)); [|done]. simpl.
      by destruct (decide (nv = o)) as [->|]. }
    assert (Hscan : scan h p old_value new_value 0 (length l) l
                    = Some (<[j := nv]> c1)).
    { replace (length l) with (j + (1 + (length l - S j))) by lia.
      rewrite scan_app, Hs1. simpl.
      rewrite Hc1j, Ho1, decide_True by done. rewrite Hn1.
      apply (scan_fixed nv).
      - rewrite length_insert. lia.
      - rewrite Hj. simpl. rewrite decide_True by done.
        apply list_lookup_insert_eq. lia.
      - apply resolve_insert_same; [lia|done]. }
    eexists. split; [exact Hscan|]. rewrite length_insert.
    assert (Hlim : scan_limit p (length l) old_value = S j)
      by (rewrite Hj; simpl; by rewrite decide_True).
    split; [done|]. intros i. rewrite Hlim.
    destruct (decide (i = j)) as [->|Hij].
    + rewrite decide_True by lia.
      rewrite list_lookup_insert_eq by lia. rewrite Hoj. simpl.
      by rewrite decide_True.
    + rewrite list_lookup_insert_ne by done. rewrite Hi1.
      destruct (decide (i < S j)).
      * by rewrite decide_True by lia.
      * by rewrite decide_False by lia.
  - destruct (scan_segment o nv (length l) 0 l) as (l' & Hs & Hl & Hi);
      [lia|done|done| |].
    { intros k Hk. destruct Hfar. by exists k. }
    exists l'. split; [done|]. split; [done|]. intros i. rewrite Hi.
    assert (scan_limit p (length l) old_value = length l) as ->.
    { unfold scan_limit. destruct old_value as [a|q k]; [done|].
      destruct (decide (q = p)) as [->|]; [|done].
      destruct Hfar. by exists k. }
    destruct (decide (i < length l)).
    + by rewrite decide_True by lia.
    + by rewrite decide_False by lia.
Qed.

End scan.

(** What [std_replace] over a whole list leaves behind. *)
Lemma std_replace_run h p l old_value new_value o nv :
  listStore h !! p = Some l →
  readRef h old_value = Some o → readRef h new_value = Some nv →
  std_replace p 0 (length l) old_value new_value h
  = Ok tt (set_listStore
             <[p := replace_upto l o nv (scan_limit p (length l) old_value)]>
             h).
Proof.
  intros Hp Ho Hn. rewrite (std_replace_scan p _ _ _ 0 h l Hp).
  rewrite (readRef_resolve h p l _ Hp) in Ho.
  rewrite (readRef_resolve h p l _ Hp) in Hn.
  destruct (scan_all h p old_value new_value o nv l Ho Hn)
    as (l' & -> & Hlen & Hi).
  do 3 f_equal. apply list_eq. intros i.
  by rewrite Hi, replace_upto_lookup.
Qed.

Lemma std_replace_absent_run h p l old_value new_value o :
  listStore h !! p = Some l → readRef h old_value = Some o → o ∉ l →
  std_replace p 0 (length l) old_value new_value h
  = Ok tt (set_listStore <[p := l]> h).
Proof.
  intros Hp Ho Hnin. rewrite (std_replace_scan p _ _ _ 0 h l Hp).
  rewrite (readRef_resolve h p l _ Hp) in Ho.
  by rewrite (scan_absent h p old_value new_value o (length l) 0 l).
Qed.

(** A reference that can be read keeps its value when a new list is
    allocated. *)
Lemma readRef_unshared h this n l r v :
  readRef h r = Some v → readRef (unshared h this n l) r = Some v.
Proof.
  destruct r as [a|q i]; simpl; [done|].
  destruct (listStore h !! q) as [lq|] eqn:Hq; [|done].
  intros Hv. rewrite lookup_insert_ne; [by rewrite Hq|].
  by apply fresh_list_ne with lq.
Qed.

Lemma readRef_not_fresh (h : Heap) j v :
  readRef h (Element (fresh (dom (listStore h))) j) = Some v → False.
Proof. simpl. by rewrite fresh_list_unused. Qed.

(** After the unsharing the scanned list is the node's own, and the scan
    goes as far as [replace_limit] says. *)
Lemma scan_limit_own h this n l h1 n1 oldChild o :
  readRef h oldChild = Some o →
  (childrenAreShared_ n = true →
     h1 = unshared h this n l ∧
     n1 = set_children (fresh (dom (listStore h)))
            (set_childrenAreShared false n)) →
  (childrenAreShared_ n = false → h1 = h ∧ n1 = n) →
  scan_limit (children_ n1) (length l) oldChild
  = replace_limit n (length l) oldChild.
Proof.
  intros Ho Hsh Hown. unfold replace_limit, own_element, scan_limit.
  destruct (childrenAreShared_ n).
  - destruct (Hsh eq_refl) as [_ ->]. simpl.
    destruct oldChild as [a|q j]; [done|].
    destruct (decide (q = _)) as [->|]; [|done].
    by destruct (readRef_not_fresh h j o).
  - destruct (Hown eq_refl) as [_ ->].
    destruct oldChild as [a|q j]; [done|].
    by destruct (decide (q = children_ n)).
Qed.

Lemma cloneChildrenIfShared_node h this n l :
  nodeStore h !! this = Some n → listStore h !! children_ n = Some l →
  ∃ h1 n1, cloneChildrenIfShared this h = Ok tt h1 ∧
    nodeStore h1 !! this = Some n1 ∧ listStore h1 !! children_ n1 = Some l ∧
    sealed_ n1 = sealed_ n ∧
    (childrenAreShared_ n = true →
       h1 = unshared h this n l ∧
       n1 = set_children (fresh (dom (listStore h)))
              (set_childrenAreShared false n)) ∧
    (childrenAreShared_ n = false → h1 = h ∧ n1 = n) ∧
    (∀ r v, readRef h r = Some v → readRef h1 r = Some v).
Proof.
  intros Hn Hl.
  destruct (cloneChildrenIfShared_any h this n l Hn Hl)
    as (h1 & n1 & Hc & Hn1 & Hl1 & Hs1 & Hsh & Hown).
  exists h1, n1. repeat (split; [done|]). split; [|split; [done|]].
  - intros Hflag. specialize (Hsh Hflag). subst h1. split; [done|].
    unfold unshared in Hn1; simpl in Hn1. rewrite lookup_insert_eq in Hn1.
    congruence.
  - intros r v Hr. destruct (childrenAreShared_ n) eqn:Hflag.
    + rewrite (Hsh eq_refl). by apply readRef_unshared.
    + by destruct (Hown eq_refl) as [-> _].
Qed.

(** What [replaceChild] does on an unsealed node: it unshares the
    children, then stores [replaced_children_upto] in the node's own
    list. *)
Lemma replaceChild_unsealed h this n l oldChild newChild suggestedIndex o nv :
  nodeStore h !! this = Some n → sealed_ n = false →
  listStore h !! children_ n = Some l →
  readRef h oldChild = Some o → readRef h newChild = Some nv →
  ∃ h1 n1, cloneChildrenIfShared this h = Ok tt h1 ∧
    nodeStore h1 !! this = Some n1 ∧ listStore h1 !! children_ n1 = Some l ∧
    (childrenAreShared_ n = true → h1 = unshared h this n l) ∧
    (childrenAreShared_ n = false → h1 = h ∧ n1 = n) ∧
    replaceChild this oldChild newChild suggestedIndex h
    = Ok tt (set_listStore
               <[children_ n1 :=
                   replaced_children_upto l o nv suggestedIndex
                     (replace_limit n (length l) oldChild)]> h1).
Proof.
  intros Hn Hs Hl Ho Hnv.
  destruct (cloneChildrenIfShared_node h this n l Hn Hl)
    as (h1 & n1 & Hc & Hn1 & Hl1 & _ & Hsh & Hown & Hread).
  exists h1, n1. split; [done|]. split; [done|]. split; [done|].
  split; [intros Hf; by destruct (Hsh Hf)|]. split; [done|].
  pose proof (Hread _ _ Ho) as Ho1. pose proof (Hread _ _ Hnv) as Hnv1.
  pose proof (scan_limit_own h this n l h1 n1 oldChild o Ho Hsh Hown) as Hlim.
  pose proof (std_replace_run h1 (children_ n1) l oldChild newChild o nv
                Hl1 Ho1 Hnv1) as Hscan.
  rewrite Hlim in Hscan.
  unfold replaceChild, bind.
  rewrite (ensureUnsealed_unsealed h this n Hn Hs), Hc.
  unfold getNode. rewrite Hn1. unfold getList. rewrite Hl1.
  unfold replaced_children_upto.
  destruct (_ && _) eqn:Hchk; [|exact Hscan].
  apply andb_true_iff in Hchk as [_ Hlt]. apply bool_decide_eq_true in Hlt.
  destruct (l !! _) as [x|] eqn:Hx.
  - unfold deref. rewrite Ho1.
    destruct (decide (x = o)); [|exact Hscan].
    rewrite Hnv1. unfold setList. by rewrite Hl1.
  - apply lookup_ge_None in Hx.
    assert (0 ≤ to_size_t suggestedIndex)%Z
      by (unfold to_size_t; apply Z.mod_pos_bound; done).
    lia.
Qed.

(** Without a match [replaceChild] rewrites the list as it is, and
    [newChild] is never read. *)
Lemma replaceChild_absent h this n l oldChild newChild suggestedIndex o :
  nodeStore h !! this = Some n → sealed_ n = false →
  listStore h !! children_ n = Some l →
  readRef h oldChild = Some o → o ∉ l →
  ∃ h1 n1, cloneChildrenIfShared this h = Ok tt h1 ∧
    nodeStore h1 !! this = Some n1 ∧ listStore h1 !! children_ n1 = Some l ∧
    replaceChild this oldChild newChild suggestedIndex h
    = Ok tt (set_listStore <[children_ n1 := l]> h1).
Proof.
  intros Hn Hs Hl Ho Hnin.
  destruct (cloneChildrenIfShared_node h this n l Hn Hl)
    as (h1 & n1 & Hc & Hn1 & Hl1 & _ & _ & _ & Hread).
  exists h1, n1. split; [done|]. split; [done|]. split; [done|].
  pose proof (Hread _ _ Ho) as Ho1.
  pose proof (std_replace_absent_run h1 (children_ n1) l oldChild newChild o
                Hl1 Ho1 Hnin) as Hscan.
  unfold replaceChild, bind.
  rewrite (ensureUnsealed_unsealed h this n Hn Hs), Hc.
  unfold getNode. rewrite Hn1. unfold getList. rewrite Hl1.
  destruct (_ && _) eqn:Hchk; [|exact Hscan].
  destruct (l !! _) as [x|] eqn:Hx.
  - unfold deref. rewrite Ho1.
    destruct (decide (x = o)) as [->|]; [|exact Hscan].
    exfalso. apply Hnin. by eapply list_elem_of_lookup_2.
  - apply andb_true_iff in Hchk as [_ Hlt]. apply bool_decide_eq_true in Hlt.
    apply lookup_ge_None in Hx.
    assert (0 ≤ to_size_t suggestedIndex)%Z
      by (unfold to_size_t; apply Z.mod_pos_bound; done).
    lia.
Qed.

Lemma appendChild_unsealed h this n l child :
  nodeStore h !! this = Some n → sealed_ n = false →
  listStore h !! children_ n = Some l →
  ∃ h1 n1, cloneChildrenIfShared this h = Ok tt h1 ∧
    nodeStore h1 !! this = Some n1 ∧ listStore h1 !! children_ n1 = Some l ∧
    (childrenAreShared_ n = true → h1 = unshared h this n l) ∧
    (childrenAreShared_ n = false → h1 = h ∧ n1 = n) ∧
    appendChild this child h
    = Ok tt (set_listStore <[children_ n1 := l ++ [child]]> h1).
Proof.
  intros Hn Hs Hl.
  destruct (cloneChildrenIfShared_any h this n l Hn Hl)
    as (h1 & n1 & Hc & Hn1 & Hl1 & _ & Hsh & Hown).
  exists h1, n1. repeat (split; [done|]).
  unfold appendChild, bind.
  rewrite (ensureUnsealed_unsealed h this n Hn Hs), Hc.
  unfold getNode. rewrite Hn1. unfold push_back, bind, getList, setList.
  by rewrite Hl1, Hl1.
Qed.

Lemma childrenOf_stored (h1 : Heap) this n1 l' :
  nodeStore h1 !! this = Some n1 →
  childrenOf (set_listStore <[children_ n1 := l']> h1) this = Some l'.
Proof.
  intros Hn. unfold childrenOf, set_listStore; simpl.
  by rewrite Hn, lookup_insert_eq.
Qed.

(** In a well-formed heap the list [cloneChildrenIfShared] allocates is
    designated by no other node. *)
Lemma unshared_exclusive h this n l m nm :
  heap_wf h = true → m ≠ this →
  nodeStore (unshared h this n l) !! m = Some nm →
  nodeStore h !! m = Some nm ∧ children_ nm ≠ fresh (dom (listStore h)).
Proof.
  intros Hwf Hne. unfold unshared; simpl.
  rewrite lookup_insert_ne by done. intros Hm. split; [done|].
  destruct (heap_wf_lookup h m nm Hwf Hm) as [lm Hlm].
  intros Heq. rewrite Heq, fresh_list_unused in Hlm. done.
Qed.

(** ** Trees of bounded depth *)

Lemma wf_tree_unfold d h a :
  wf_tree (S d) h a = true →
  ∃ n b l, nodeStore h !! a = Some n ∧ propsStore h !! props_ n = Some b ∧
    listStore h !! children_ n = Some l ∧
    Forall (λ c, wf_tree d h c = true) l.
Proof.
  simpl. destruct (nodeStore h !! a) as [n|] eqn:Hn; [|done].
  destruct (propsStore h !! props_ n) as [b|] eqn:Hb; [|done].
  destruct (listStore h !! children_ n) as [l|] eqn:Hl; [|done].
  intros Hall. exists n, b, l. repeat (split; [done|]).
  apply Forall_forall. intros c Hc.
  rewrite forallb_forall in Hall. apply Hall. by apply list_elem_of_In.
Qed.

(** ** The ancestor search *)

Section ancestor_path.
Variable h : Heap.
Variable this : addr.

Lemma ancestor_chain_snoc n path c a l :
  ancestor_chain h n path c → childrenOf h a = Some l → c ∈ l →
  ancestor_chain h n (path ++ [a]) a.
Proof.
  revert n. induction path as [|p path IH]; simpl; intros n Hc Hl Hin.
  - subst n. split; [by exists l | done].
  - destruct Hc as [Hp Hc]. split; [done|]. by apply IH.
Qed.

Lemma reachable_child a p n l :
  reachable h a p → childrenOf h p = Some l → n ∈ l → reachable h a n.
Proof.
  intros Hr Hl Hin. induction Hr as [a|a c m l' Hl' Hin' _ IH].
  - eapply reach_child; [exact Hl | exact Hin | constructor].
  - eapply reach_child; [exact Hl' | exact Hin' | by apply IH].
Qed.

Lemma ancestor_chain_reachable n path a :
  ancestor_chain h n path a → reachable h a n.
Proof.
  revert n. induction path as [|p path IH]; simpl; intros n.
  - intros ->. constructor.
  - intros [(l & Hl & Hin) Hc]. eapply reachable_child; eauto.
Qed.

Lemma ancestor_chain_ends n p path a :
  ancestor_chain h n (p :: path) a →
  (∃ l, childrenOf h p = Some l ∧ n ∈ l) ∧ last (p :: path) = Some a.
Proof.
  intros [Hp Hc]. split; [done|]. clear Hp.
  revert p Hc. induction path as [|q path IH]; intros p Hc.
  - simpl in Hc. by subst p.
  - rewrite last_cons_cons. destruct Hc as [_ Hc]. by apply IH.
Qed.

(** The loop over the children of [a], given that each recursive call
    answers well. *)
Lemma search_children_answer search a la l out :
  childrenOf h a = Some la → l ⊆ la → this ≠ a →
  (∀ c out, c ∈ l → search_answer h this c out (search c out)) →
  ∃ b out', search_children search a l out = Some (b, out') ∧
    (b = true → ∃ path, out' = out ++ path ∧
                 ancestor_chain h this path a ∧ (this = a → path = [])) ∧
    (b = false → out' = out ∧ ∀ c, c ∈ l → ¬ reachable h c this).
Proof.
  intros Hla Hsub Hne. revert out.
  induction l as [|c l IH]; intros out Hsearch; simpl.
  - exists false, out. split; [done|]. split; [done|].
    intros _. split; [done|]. intros c Hc. by apply elem_of_nil in Hc.
  - destruct (Hsearch c out) as (b & out' & -> & Htrue & Hfalse);
      [by left|].
    destruct b.
    + destruct (Htrue eq_refl) as (path & Hout & Hchain & _).
      clear Htrue Hfalse. subst out'.
      exists true, ((out ++ path) ++ [a]). split; [done|]. split; [|done].
      intros _. exists (path ++ [a]). split; [by rewrite app_assoc|].
      split; [|done]. eapply ancestor_chain_snoc; [done..|].
      apply Hsub. by left.
    + destruct (Hfalse eq_refl) as [Hout Hnot]. clear Htrue Hfalse.
      subst out'.
      assert (Hsub' : l ⊆ la) by set_solver.
      destruct (IH Hsub' out) as (b & out' & Hr & Htrue' & Hfalse').
      { intros c' out0 Hc'. apply Hsearch. by right. }
      exists b, out'. split; [done|]. split; [done|].
      intros Hb. destruct (Hfalse' Hb) as [-> Hrest]. split; [done|].
      intros c' Hc'. apply elem_of_cons in Hc' as [->|Hc']; [done|].
      by apply Hrest.
Qed.

Lemma constructAncestorPath_answer d :
  ∀ a out, wf_tree d h a = true →
    search_answer h this a out (constructAncestorPath d h this a out).
Proof.
  induction d as [|d IH]; intros a out Hwf; [done|].
  destruct (wf_tree_unfold d h a Hwf) as (n & b & l & Hn & _ & Hl & Hall).
  simpl. destruct (decide (this = a)) as [->|Hne].
  - exists true, out. split; [done|]. split; [|done].
    intros _. exists []. by rewrite app_nil_r.
  - rewrite Hn, Hl.
    assert (Hch : childrenOf h a = Some l)
      by (unfold childrenOf; by rewrite Hn).
    destruct (search_children_answer (constructAncestorPath d h this)
                a l l out Hch ltac:(done) Hne)
      as (b' & out' & Hr & Htrue & Hfalse).
    { intros c out0 Hc. apply IH.
      rewrite Forall_forall in Hall. by apply Hall. }
    exists b', out'. split; [done|]. split; [done|].
    intros Hb. destruct (Hfalse Hb) as [-> Hnone]. split; [done|].
    intros Hreach. inversion Hreach as [|? c ? l' Hl' Hin Hc]; subst.
    + done.
    + rewrite Hch in Hl'. injection Hl' as <-. by apply (Hnone c).
Qed.

End ancestor_path.
(** ** Sealing only adds seals *)

Lemma set_sealed_id n : set_sealed (sealed_ n) n = n.
Proof. by destruct n. Qed.

Lemma seal_ext_refl h : seal_ext h h.
Proof.
  repeat split.
  - intros a. destruct (nodeStore h !! a) as [n|] eqn:Hn; [|done].
    exists (sealed_ n). by rewrite set_sealed_id.
  - intros p. destruct (propsStore h !! p) as [b|] eqn:Hp; [|done].
    by exists b.
Qed.

Lemma seal_ext_trans h1 h2 h3 :
  seal_ext h1 h2 → seal_ext h2 h3 → seal_ext h1 h3.
Proof.
  intros (Hl1 & He1 & Hn1 & Hp1) (Hl2 & He2 & Hn2 & Hp2).
  split; [congruence|]. split; [congruence|]. split.
  - intros a. specialize (Hn1 a). specialize (Hn2 a).
    destruct (nodeStore h1 !! a) as [n|].
    + destruct Hn1 as (b & Hb & Hmono). rewrite Hb in Hn2.
      destruct Hn2 as (b' & Hb' & Hmono'). exists b'. split; [done|].
      intros Hs. apply Hmono'. simpl. by apply Hmono.
    + by rewrite Hn1 in Hn2.
  - intros p. specialize (Hp1 p). specialize (Hp2 p).
    destruct (propsStore h1 !! p) as [b|].
    + destruct Hp1 as (b1 & Hb1 & Hmono). rewrite Hb1 in Hp2.
      destruct Hp2 as (b2 & Hb2 & Hmono'). exists b2. split; [done|].
      intros Hs. by apply Hmono', Hmono.
    + by rewrite Hp1 in Hp2.
Qed.

Lemma seal_ext_childrenOf h h' a :
  seal_ext h h' → childrenOf h' a = childrenOf h a.
Proof.
  intros (Hl & _ & Hn & _). specialize (Hn a). unfold childrenOf.
  destruct (nodeStore h !! a) as [n|].
  - destruct Hn as (b & -> & _). simpl. by rewrite Hl.
  - by rewrite Hn.
Qed.

Lemma seal_ext_node_sealed h h' a :
  seal_ext h h' → node_sealed h a = true → node_sealed h' a = true.
Proof.
  intros (_ & _ & Hn & _). specialize (Hn a). unfold node_sealed.
  destruct (nodeStore h !! a) as [n|]; [|done].
  destruct Hn as (b & -> & Hmono). simpl. exact Hmono.
Qed.

Lemma seal_ext_payload_sealed h h' a :
  seal_ext h h' → payload_sealed h a = true → payload_sealed h' a = true.
Proof.
  intros (_ & _ & Hn & Hp). specialize (Hn a). unfold payload_sealed.
  destruct (nodeStore h !! a) as [n|]; [|done].
  destruct Hn as (b & -> & _). simpl. specialize (Hp (props_ n)).
  destruct (propsStore h !! props_ n) as [bp|]; [|done].
  destruct Hp as (bp' & -> & Hmono). simpl. exact Hmono.
Qed.

Lemma seal_ext_wf_tree h h' d a :
  seal_ext h h' → wf_tree d h a = true → wf_tree d h' a = true.
Proof.
  intros Hext. revert a. induction d as [|d IH]; intros a Hwf; [done|].
  destruct (wf_tree_unfold d h a Hwf) as (n & b & l & Hn & Hb & Hl & Hall).
  destruct Hext as (Hle & _ & Hne & Hpe).
  specialize (Hne a). rewrite Hn in Hne. destruct Hne as (bs & Hn' & _).
  specialize (Hpe (props_ n)). rewrite Hb in Hpe.
  destruct Hpe as (b' & Hb' & _).
  simpl. rewrite Hn'. simpl. rewrite Hb', Hle, Hl.
  apply forallb_forall. intros c Hc. apply IH.
  rewrite Forall_forall in Hall. by apply Hall, list_elem_of_In.
Qed.

(** ** The two sealing steps *)

Lemma seal_step h a n :
  nodeStore h !! a = Some n →
  seal a h = Ok tt (set_nodeStore <[a := set_sealed true n]> h) ∧
  seal_ext h (set_nodeStore <[a := set_sealed true n]> h).
Proof.
  intros Hn. split; [unfold seal, modifyNode; by rewrite Hn|].
  repeat split; simpl.
  - intros a'. destruct (decide (a = a')) as [<-|Hne].
    + rewrite Hn, lookup_insert_eq. by exists true.
    + rewrite lookup_insert_ne by done.
      destruct (nodeStore h !! a') as [n'|]; [|done].
      exists (sealed_ n'). by rewrite set_sealed_id.
  - intros p. destruct (propsStore h !! p) as [b|]; [|done]. by exists b.
Qed.

Lemma Props_seal_step h p b :
  propsStore h !! p = Some b →
  Props_seal p h = Ok tt (set_propsStore <[p := true]> h) ∧
  seal_ext h (set_propsStore <[p := true]> h).
Proof.
  intros Hp. split; [unfold Props_seal; by rewrite Hp|].
  repeat split; simpl.
  - intros a. destruct (nodeStore h !! a) as [n|]; [|done].
    exists (sealed_ n). by rewrite set_sealed_id.
  - intros p'. destruct (decide (p = p')) as [<-|Hne].
    + rewrite Hp, lookup_insert_eq. by exists true.
    + rewrite lookup_insert_ne by done.
      destruct (propsStore h !! p') as [b'|]; [|done]. by exists b'.
Qed.

(** ** The invariant of the traversal *)


Lemma sealed_on_ext (P : addr → Prop) h h' :
  seal_ext h h' →
  (∀ a, P a → node_sealed h' a = true → node_sealed h a = true) →
  sealed_on P h → sealed_on P h'.
Proof.
  intros Hext Hback Hinv a HP Hs.
  destruct (Hinv a HP (Hback a HP Hs)) as [Hpay Hch]. split.
  - by eapply seal_ext_payload_sealed.
  - rewrite (seal_ext_childrenOf h h' a Hext).
    eapply Forall_impl; [exact Hch|]. intros c Hc. simpl in Hc.
    by eapply seal_ext_node_sealed.
Qed.

Lemma for_each_sealRecursive d (P : addr → Prop) :
  seals_from d →
  ∀ l h, Forall (λ c, wf_tree d h c = true) l → sealed_on P h →
    ∃ h', for_each l (sealRecursive d) h = Ok tt h' ∧ seal_ext h h' ∧
          sealed_on P h' ∧ Forall (λ c, node_sealed h' c = true) l.
Proof.
  intros IHd. induction l as [|c l IHl]; intros h Hwf Hinv.
  - exists h. split; [done|]. split; [apply seal_ext_refl|]. done.
  - apply Forall_cons in Hwf as [Hc Hl].
    destruct (IHd c h P Hc Hinv) as (h1 & Hrun1 & Hext1 & Hinv1 & Hs1).
    destruct (IHl h1) as (h2 & Hrun2 & Hext2 & Hinv2 & Hs2); [|done|].
    { eapply Forall_impl; [exact Hl|]. intros c' Hc'. simpl in Hc'.
      by eapply seal_ext_wf_tree. }
    exists h2. split.
    { simpl. unfold bind. by rewrite Hrun1. }
    split; [by eapply seal_ext_trans|]. split; [done|].
    apply Forall_cons. split; [|done]. by eapply seal_ext_node_sealed.
Qed.

Lemma sealRecursive_seals d : seals_from d.
Proof.
  induction d as [|d IHd]; intros a h P Hwf Hinv; [done|].
  destruct (wf_tree_unfold d h a Hwf) as (n & b & l & Hn & Hb & Hl & Hall).
  simpl. unfold bind at 1. unfold getSealed, bind, getNode, ret.
  rewrite Hn. destruct (sealed_ n) eqn:Hsealed.
  { exists h. split; [done|]. split; [apply seal_ext_refl|].
    split; [done|]. unfold node_sealed. by rewrite Hn. }
  destruct (seal_step h a n Hn) as [Hrun1 Hext1].
  set (h1 := set_nodeStore <[a := set_sealed true n]> h) in *.
  assert (Hn1 : nodeStore h1 !! a = Some (set_sealed true n))
    by (subst h1; simpl; apply lookup_insert_eq).
  destruct (Props_seal_step h1 (props_ n) b Hb) as [Hrun2 Hext2].
  set (h2 := set_propsStore <[props_ n := true]> h1) in *.
  assert (Hn2 : nodeStore h2 !! a = Some (set_sealed true n)) by exact Hn1.
  assert (Hp2 : propsStore h2 !! props_ n = Some true)
    by (subst h2; simpl; apply lookup_insert_eq).
  assert (Hl2 : listStore h2 !! children_ n = Some l) by exact Hl.
  assert (Hext : seal_ext h h2) by (by eapply seal_ext_trans).
  assert (Hinv2 : sealed_on (λ x, P x ∧ x ≠ a) h2).
  { apply sealed_on_ext with h; [done| |].
    - intros x [_ Hne]. unfold node_sealed. subst h2 h1; simpl.
      by rewrite lookup_insert_ne.
    - intros x [HP _]. by apply Hinv. }
  destruct (for_each_sealRecursive d (λ x, P x ∧ x ≠ a) IHd l h2)
    as (h3 & Hrun3 & Hext3 & Hinv3 & Hkids); [|done|].
  { eapply Forall_impl; [exact Hall|]. intros c Hc. simpl in Hc.
    by eapply seal_ext_wf_tree. }
  exists h3. split.
  { rewrite Hrun1, Hn1. simpl. rewrite Hrun2.
    unfold getList. rewrite Hl2. exact Hrun3. }
  split; [by eapply seal_ext_trans|].
  assert (Ha3 : node_sealed h3 a = true).
  { eapply seal_ext_node_sealed; [exact Hext3|].
    unfold node_sealed. by rewrite Hn2. }
  split; [|done].
  intros x HP Hsx. destruct (decide (x = a)) as [->|Hne].
  - split.
    + eapply seal_ext_payload_sealed; [exact Hext3|].
      unfold payload_sealed. rewrite Hn2.
      change (props_ (set_sealed true n)) with (props_ n). by rewrite Hp2.
    + rewrite (seal_ext_childrenOf h h3 a) by (by eapply seal_ext_trans).
      unfold childrenOf. rewrite Hn, Hl. done.
  - by apply Hinv3.
Qed.


Lemma sealed_closed_tree_sealed_on d h root :
  sealed_closed_tree d h root = true → sealed_on (reachable h root) h.
Proof.
  revert root. induction d as [|d IH]; intros root Hc; [done|].
  simpl in Hc.
  destruct (nodeStore h !! root) as [n|] eqn:Hn; [|done].
  destruct (listStore h !! children_ n) as [l|] eqn:Hl; [|done].
  apply andb_true_iff in Hc as [Hroot Hkids].
  assert (Hch : childrenOf h root = Some l)
    by (unfold childrenOf; by rewrite Hn).
  intros x Hr. inversion Hr as [|? c ? l' Hl' Hin Hcx]; subst.
  - intros Hs. unfold node_sealed in Hs. rewrite Hn in Hs.
    rewrite Hs in Hroot. apply andb_true_iff in Hroot as [Hpay Hall].
    split; [done|]. rewrite Hch. simpl.
    apply Forall_forall. intros c Hc. rewrite forallb_forall in Hall.
    by apply Hall, list_elem_of_In.
  - rewrite Hch in Hl'. injection Hl' as <-.
    rewrite forallb_forall in Hkids. apply (IH c); [|done].
    by apply Hkids, list_elem_of_In.
Qed.

Lemma sealed_reachable h h' root a n :
  (∀ x, childrenOf h' x = childrenOf h x) →
  sealed_on (reachable h root) h' →
  reachable h root a → reachable h a n → node_sealed h' a = true →
  node_sealed h' n = true ∧ payload_sealed h' n = true.
Proof.
  intros Hch Hinv Hra Hr.
  induction Hr as [a|a c n l Hl Hin _ IH]; intros Hs.
  - split; [done|]. by destruct (Hinv a Hra Hs).
  - apply IH; [by eapply reachable_child|].
    destruct (Hinv a Hra Hs) as [_ Hkids].
    rewrite Hch, Hl in Hkids. simpl in Hkids.
    rewrite Forall_forall in Hkids. by apply Hkids.
Qed.

(** * The claims *)

(** ** C1: replaceChild *)




(** ** C2: the event emitter of a clone *)

(** C2, as stated, fails: the claim says the fragment never overrides the
    event handle.  Cloning the root with a fragment that carries emitter 4
    gives a node whose emitter is 4, while the source's is 1. *)
Lemma clone_event_handle_counterexample :
  getEventEmitter 1 ex_cloned_emitter = Ok (Some 1%positive) ex_cloned_emitter ∧
  getEventEmitter 5 ex_cloned_emitter = Ok (Some 4%positive) ex_cloned_emitter ∧
  Some 4%positive ≠ Some 1%positive.
Proof.
  split; [vm_compute; reflexivity|]. split; [vm_compute; reflexivity|].
  discriminate.
Qed.

(** C2, amended: the event handle of a clone is the fragment's when the
    fragment carries one, and the source node's otherwise. *)
Theorem clone_event_handle h this source N fragment :
  nodeStore h !! source = Some N → nodeStore h !! this = None →
  ∃ h', construct_from_source this source fragment h = Ok tt h' ∧
    getEventEmitter this h' =
      Ok (match eventEmitter fragment with
          | Some e => Some e
          | None => eventEmitter_ N
          end) h'.
Proof.
  intros Hs Ht. eexists. split.
  { unfold construct_from_source. by rewrite Ht, Hs. }
  unfold getEventEmitter, bind, getNode, ret; simpl.
  rewrite lookup_insert_eq. simpl. unfold elvis.
  by destruct (eventEmitter fragment).
Qed.

Lemma clone_event_handle_witness :
  ∃ h', construct_from_source 5 1 ex_emitter_fragment ex_heap = Ok tt h' ∧
    getEventEmitter 5 h' = Ok (Some 4%positive) h'.
Proof.
  apply (clone_event_handle ex_heap 5%positive 1%positive (ex_node 1 1 1)
           ex_emitter_fragment);
    vm_compute; reflexivity.
Defined.

(** ** C3: sealRecursive *)

(** C3, as stated, fails: the root was sealed by [seal()], which does not
    touch payload or children.  [sealRecursive()] on it returns at once,
    and the reachable child [C1] and the root's payload stay unsealed. *)
Lemma sealRecursive_presealed_counterexample :
  wf_tree 3 ex_root_sealed 1 = true ∧
  sealRecursive 3 1 ex_root_sealed = Ok tt ex_root_sealed ∧
  reachable ex_root_sealed 1 2 ∧
  node_sealed ex_root_sealed 2 = false ∧
  payload_sealed ex_root_sealed 1 = false.
Proof.
  split; [vm_compute; reflexivity|].
  split; [vm_compute; reflexivity|]. split; [|split; vm_compute; reflexivity].
  apply reach_child with 2%positive [2; 3]%positive.
  - vm_compute; reflexivity.
  - by left.
  - constructor.
Qed.

(** C3, amended: on a tree in which every node that is already sealed
    has a sealed payload and only sealed children, [sealRecursive()] on
    the root returns, and afterwards every node reachable from the root
    and every such node's payload report sealed; the shape of the tree
    is unchanged; and a second call on the same root returns at once and
    changes nothing. *)
Theorem sealRecursive_seals_tree d h root :
  wf_tree d h root = true → sealed_closed_tree d h root = true →
  ∃ h', sealRecursive d root h = Ok tt h' ∧
    (∀ a, reachable h root a →
          node_sealed h' a = true ∧ payload_sealed h' a = true) ∧
    (∀ a, childrenOf h' a = childrenOf h a) ∧
    (∀ fuel, sealRecursive (S fuel) root h' = Ok tt h').
Proof.
  intros Hwf Hclosed.
  destruct (sealRecursive_seals d root h (reachable h root) Hwf
              (sealed_closed_tree_sealed_on d h root Hclosed))
    as (h' & Hrun & Hext & Hinv & Hs).
  exists h'. split; [done|].
  assert (Hch : ∀ a, childrenOf h' a = childrenOf h a)
    by (intros a; by apply seal_ext_childrenOf).
  split; [|split; [done|]].
  - intros a Hr. eapply sealed_reachable; [done..| constructor | done | done].
  - intros fuel. simpl. unfold bind, getSealed, bind, getNode, ret.
    unfold node_sealed in Hs.
    destruct (nodeStore h' !! root) as [n|]; [|done]. by rewrite Hs.
Qed.

Lemma sealRecursive_seals_tree_witness :
  node_sealed ex_leaf_sealed_rec 2 = true ∧
  node_sealed ex_leaf_sealed_rec 1 = false ∧
  ∃ h', sealRecursive 3 1 ex_leaf_sealed_rec = Ok tt h' ∧
    (∀ a, reachable ex_leaf_sealed_rec 1 a →
          node_sealed h' a = true ∧ payload_sealed h' a = true) ∧
    (∀ a, childrenOf h' a = childrenOf ex_leaf_sealed_rec a) ∧
    (∀ fuel, sealRecursive (S fuel) 1 h' = Ok tt h').
Proof.
  split; [vm_compute; reflexivity|]. split; [vm_compute; reflexivity|].
  apply (sealRecursive_seals_tree 3 ex_leaf_sealed_rec 1%positive);
    vm_compute; reflexivity.
Defined.

(** ** C4: mutators on a sealed node *)

(** C4: on a sealed node, [appendChild], [replaceChild] and
    [setLocalData] all fault at [ensureUnsealed], and the state at the
    fault is the state before the call: children, payload and auxiliary
    data are unchanged. *)
Theorem mutators_fault_on_sealed h this n :
  nodeStore h !! this = Some n → sealed_ n = true →
  (∀ child, appendChild this child h = Fault h) ∧
  (∀ oldChild newChild suggestedIndex,
     replaceChild this oldChild newChild suggestedIndex h = Fault h) ∧
  (∀ localData, setLocalData this localData h = Fault h).
Proof.
  intros Hn Hs.
  pose proof (ensureUnsealed_sealed h this n Hn Hs) as He.
  repeat split; intros;
    unfold appendChild, replaceChild, setLocalData, bind; by rewrite He.
Qed.

Lemma mutators_fault_on_sealed_witness :
  nodeStore ex_leaf_sealed !! 2%positive
    = Some (set_sealed true (ex_node 2 2 2)) ∧
  appendChild 2 4 ex_leaf_sealed = Fault ex_leaf_sealed ∧
  replaceChild 2 (Detached 3) (Detached 4) 0 ex_leaf_sealed
  = Fault ex_leaf_sealed ∧
  setLocalData 2 (Some 1%positive) ex_leaf_sealed = Fault ex_leaf_sealed.
Proof.
  assert (Hn : nodeStore ex_leaf_sealed !! 2%positive
               = Some (set_sealed true (ex_node 2 2 2)))
    by (vm_compute; reflexivity).
  split; [exact Hn|].
  destruct (mutators_fault_on_sealed ex_leaf_sealed 2%positive _ Hn eq_refl)
    as (Ha & Hr & Hl).
  split; [apply Ha | split; [apply Hr | apply Hl]].
Defined.

(** ** C5: cloning with the empty fragment *)

(** C5: constructing a clone of [N] with the empty fragment gives a node
    whose revision is [N]'s plus one and whose tag, root tag, payload,
    event handle, children handle and auxiliary data are [N]'s; the clone
    is a different object, and [N] and its children are as before. *)
Theorem clone_with_empty_fragment h this source N :
  nodeStore h !! source = Some N → nodeStore h !! this = None →
  ∃ N', construct_from_source this source emptyFragment h
          = Ok tt (set_nodeStore <[this := N']> h) ∧
    revision_ N' = (revision_ N + 1)%Z ∧
    tag_ N' = tag_ N ∧ rootTag_ N' = rootTag_ N ∧ props_ N' = props_ N ∧
    eventEmitter_ N' = eventEmitter_ N ∧ children_ N' = children_ N ∧
    localData_ N' = localData_ N ∧
    this ≠ source ∧
    nodeStore (set_nodeStore <[this := N']> h) !! source = Some N ∧
    childrenOf (set_nodeStore <[this := N']> h) source = childrenOf h source.
Proof.
  intros Hs Ht.
  assert (Hne : this ≠ source) by congruence.
  exists (ShadowNode_from_source N emptyFragment). split.
  { unfold construct_from_source. by rewrite Ht, Hs. }
  simpl. unfold elvisZ; simpl.
  repeat (split; [done|]).
  unfold childrenOf; simpl. rewrite lookup_insert_ne by done.
  by rewrite Hs.
Qed.

Lemma clone_with_empty_fragment_witness :
  ∃ N', construct_from_source 5 1 emptyFragment ex_heap
          = Ok tt (set_nodeStore <[5%positive := N']> ex_heap) ∧
    revision_ N' = (revision_ (ex_node 1 1 1) + 1)%Z ∧
    tag_ N' = 1%Z ∧ rootTag_ N' = 1%Z ∧ props_ N' = 1%positive ∧
    eventEmitter_ N' = Some 1%positive ∧ children_ N' = 1%positive ∧
    localData_ N' = None ∧
    5%positive ≠ 1%positive ∧
    nodeStore (set_nodeStore <[5%positive := N']> ex_heap) !! 1%positive
      = Some (ex_node 1 1 1) ∧
    childrenOf (set_nodeStore <[5%positive := N']> ex_heap) 1
      = childrenOf ex_heap 1.
Proof.
  apply (clone_with_empty_fragment ex_heap 5%positive 1%positive
           (ex_node 1 1 1));
    vm_compute; reflexivity.
Defined.

(** ** C6: appendChild copies a shared children list once *)

(** C6: on an unsealed node whose children are shared, [appendChild]
    returns; the node now designates a list object that did not exist
    before, holding the old children followed by the new child; every
    list that existed keeps its contents, so every other node keeps its
    node and its children sequence; no other node designates the new
    list; and a further [appendChild] writes into that same list without
    allocating another. *)
Theorem appendChild_copy_on_write h this n l child :
  nodeStore h !! this = Some n → sealed_ n = false →
  childrenAreShared_ n = true → listStore h !! children_ n = Some l →
  heap_wf h = true →
  ∃ h' n', appendChild this child h = Ok tt h' ∧
    nodeStore h' !! this = Some n' ∧
    listStore h !! children_ n' = None ∧
    listStore h' !! children_ n' = Some (l ++ [child]) ∧
    childrenAreShared_ n' = false ∧
    (∀ p lp, listStore h !! p = Some lp → listStore h' !! p = Some lp) ∧
    (∀ m nm, m ≠ this → nodeStore h !! m = Some nm →
       nodeStore h' !! m = Some nm ∧ childrenOf h' m = childrenOf h m ∧
       children_ nm ≠ children_ n') ∧
    (∀ child2, ∃ h'', appendChild this child2 h' = Ok tt h'' ∧
       nodeStore h'' = nodeStore h' ∧
       listStore h'' =
         <[children_ n' := (l ++ [child]) ++ [child2]]> (listStore h')).
Proof.
  intros Hn Hs Hsh Hl Hwf.
  destruct (appendChild_unsealed h this n l child Hn Hs Hl)
    as (h1 & n1 & _ & Hn1 & _ & Hh1 & _ & Hr).
  specialize (Hh1 Hsh). subst h1.
  unfold unshared in Hn1; simpl in Hn1. rewrite lookup_insert_eq in Hn1.
  injection Hn1 as <-. simpl in Hr.
  set (p := fresh (dom (listStore h))) in *.
  set (n' := set_children p (set_childrenAreShared false n)).
  set (h' := set_listStore <[p := l ++ [child]]> (unshared h this n l)) in *.
  assert (Hn' : nodeStore h' !! this = Some n')
    by (subst h'; unfold unshared; simpl; apply lookup_insert_eq).
  assert (Hl' : listStore h' !! children_ n' = Some (l ++ [child]))
    by (subst h'; simpl; apply lookup_insert_eq).
  assert (Hold : ∀ q lq, listStore h !! q = Some lq →
                         listStore h' !! q = Some lq).
  { intros q lq Hq. subst h'; unfold unshared; simpl.
    rewrite !lookup_insert_ne by (by apply fresh_list_ne with lq). done. }
  exists h', n'. split; [exact Hr|]. split; [done|].
  split; [apply fresh_list_unused|]. split; [done|]. split; [done|].
  split; [done|]. split.
  - intros m nm Hne Hm.
    assert (Hm' : nodeStore h' !! m = Some nm)
      by (subst h'; unfold unshared; simpl; by rewrite lookup_insert_ne).
    destruct (heap_wf_lookup h m nm Hwf Hm) as [lm Hlm].
    split; [done|]. split.
    + unfold childrenOf. rewrite Hm, Hm', Hlm. by apply Hold.
    + simpl. intros Heq. rewrite Heq in Hlm.
      subst p. by rewrite fresh_list_unused in Hlm.
  - intros child2.
    destruct (appendChild_unsealed h' this n' (l ++ [child]) child2 Hn' Hs Hl')
      as (h2 & n2 & _ & _ & _ & _ & Hown & Hr2).
    destruct (Hown eq_refl) as [-> ->].
    eexists. split; [exact Hr2|]. done.
Qed.

Lemma appendChild_copy_on_write_witness :
  childrenOf ex_cloned 1 = Some [2; 3]%positive ∧
  ∃ h' n', appendChild 5 4 ex_cloned = Ok tt h' ∧
    nodeStore h' !! 5%positive = Some n' ∧
    listStore ex_cloned !! children_ n' = None ∧
    listStore h' !! children_ n' = Some ([2; 3]%positive ++ [4%positive]) ∧
    childrenAreShared_ n' = false ∧
    (∀ p lp, listStore ex_cloned !! p = Some lp →
             listStore h' !! p = Some lp) ∧
    (∀ m nm, m ≠ 5%positive → nodeStore ex_cloned !! m = Some nm →
       nodeStore h' !! m = Some nm ∧
       childrenOf h' m = childrenOf ex_cloned m ∧
       children_ nm ≠ children_ n') ∧
    (∀ child2, ∃ h'', appendChild 5 child2 h' = Ok tt h'' ∧
       nodeStore h'' = nodeStore h' ∧
       listStore h'' =
         <[children_ n' := ([2; 3]%positive ++ [4%positive]) ++ [child2]]>
           (listStore h')).
Proof.
  split; [vm_compute; reflexivity|].
  apply (appendChild_copy_on_write ex_cloned 5%positive
           (ShadowNode_from_source (ex_node 1 1 1) emptyFragment)
           [2; 3]%positive 4%positive);
    vm_compute; reflexivity.
Defined.

(** ** C7: constructAncestorPath *)

(** C7: on a tree below [A], [N.constructAncestorPath(A, out)] returns.
    When [N] is reachable from [A] the answer is true and what was
    appended to [out] is the chain of ancestors from the parent of [N] up
    to and including [A] (nothing when [N] is [A] itself); when [N] is
    not reachable the answer is false and [out] is as it was. *)
Theorem constructAncestorPath_correct d h this ancestorShadowNode ancestors :
  wf_tree d h ancestorShadowNode = true →
  (reachable h ancestorShadowNode this →
     ∃ path,
       constructAncestorPath d h this ancestorShadowNode ancestors
       = Some (true, ancestors ++ path) ∧
       ancestor_chain h this path ancestorShadowNode ∧
       (this = ancestorShadowNode → path = []) ∧
       (this ≠ ancestorShadowNode →
          ∃ parent l, head path = Some parent ∧
            childrenOf h parent = Some l ∧ this ∈ l ∧
            last path = Some ancestorShadowNode)) ∧
  (¬ reachable h ancestorShadowNode this →
     constructAncestorPath d h this ancestorShadowNode ancestors
     = Some (false, ancestors)).
Proof.
  intros Hwf.
  destruct (constructAncestorPath_answer h this d ancestorShadowNode
              ancestors Hwf) as (b & out' & Hr & Htrue & Hfalse).
  split.
  - intros Hreach. destruct b.
    + destruct (Htrue eq_refl) as (path & -> & Hchain & Hnil).
      exists path. repeat (split; [done|]).
      intros Hne. destruct path as [|p path].
      * simpl in Hchain. done.
      * destruct (ancestor_chain_ends h this p path _ Hchain)
          as [(l & Hl & Hin) Hlast].
        by exists p, l.
    + by destruct (Hfalse eq_refl) as [_ Hnot].
  - intros Hnot. destruct b.
    + destruct (Htrue eq_refl) as (path & _ & Hchain & _).
      exfalso. apply Hnot. by eapply ancestor_chain_reachable.
    + by destruct (Hfalse eq_refl) as [-> _].
Qed.

Lemma constructAncestorPath_correct_witness :
  (reachable ex_heap 1 3 →
     ∃ path,
       constructAncestorPath 3 ex_heap 3 1 [] = Some (true, [] ++ path) ∧
       ancestor_chain ex_heap 3 path 1 ∧
       (3%positive = 1%positive → path = []) ∧
       (3%positive ≠ 1%positive →
          ∃ parent l, head path = Some parent ∧
            childrenOf ex_heap parent = Some l ∧ 3%positive ∈ l ∧
            last path = Some 1%positive)) ∧
  (¬ reachable ex_heap 1 3 →
     constructAncestorPath 3 ex_heap 3 1 [] = Some (false, [])).
Proof.
  apply (constructAncestorPath_correct 3 ex_heap 3%positive 1%positive []).
  vm_compute; reflexivity.
Defined.

(** ** C8: replaceChild without a match *)

(** C8: on an unsealed node none of whose children is identical to
    [oldChild], [replaceChild] returns normally, whatever the hint and
    whatever [newChild] is, and the node's children sequence has the
    contents it had. *)
Theorem replaceChild_miss_is_noop h this n l oldChild newChild suggestedIndex
    o :
  nodeStore h !! this = Some n → sealed_ n = false →
  listStore h !! children_ n = Some l →
  readRef h oldChild = Some o → o ∉ l →
  ∃ h', replaceChild this oldChild newChild suggestedIndex h = Ok tt h' ∧
    childrenOf h this = Some l ∧ childrenOf h' this = Some l.
Proof.
  intros Hn Hs Hl Ho Hnin.
  destruct (replaceChild_absent h this n l oldChild newChild suggestedIndex
              o Hn Hs Hl Ho Hnin) as (h1 & n1 & _ & Hn1 & _ & Hr).
  eexists. split; [exact Hr|]. split.
  - unfold childrenOf. by rewrite Hn.
  - by apply childrenOf_stored.
Qed.

Lemma replaceChild_miss_is_noop_witness :
  ∃ h', replaceChild 1 (Detached 4) (Detached 3) 0 ex_heap = Ok tt h' ∧
    childrenOf ex_heap 1 = Some [2; 3]%positive ∧
    childrenOf h' 1 = Some [2; 3]%positive.
Proof.
  apply (replaceChild_miss_is_noop ex_heap 1%positive (ex_node 1 1 1)
           [2; 3]%positive (Detached 4) (Detached 3) 0%Z 4%positive).
  - vm_compute; reflexivity.
  - reflexivity.
  - vm_compute; reflexivity.
  - reflexivity.
  - refine (bool_decide_unpack _ _). vm_compute. exact I.
Defined.

(** ** C9: setMounted *)

(** C9: whatever the sealed flag of the node, [setMounted(b)] returns
    normally and its only effect is that the node's event emitter has
    enabled = [b]: the nodes (sealed flag, tag, root tag, payload and
    children pointers, auxiliary data, revision), the children lists and
    the payloads are unchanged. *)
Theorem setMounted_only_sets_enabled h this n e b mounted :
  nodeStore h !! this = Some n → eventEmitter_ n = Some e →
  emitterStore h !! e = Some b →
  ∃ h', setMounted this mounted h = Ok tt h' ∧
    emitterStore h' = <[e := mounted]> (emitterStore h) ∧
    nodeStore h' = nodeStore h ∧ listStore h' = listStore h ∧
    propsStore h' = propsStore h.
Proof.
  intros Hn He Hb. eexists. split.
  - unfold setMounted, bind, getNode, EventEmitter_setEnabled.
    rewrite Hn, He, Hb. reflexivity.
  - done.
Qed.

Lemma setMounted_only_sets_enabled_witness :
  node_sealed ex_leaf_sealed 2 = true ∧
  ∃ h', setMounted 2 true ex_leaf_sealed = Ok tt h' ∧
    emitterStore h' = <[2%positive := true]> (emitterStore ex_leaf_sealed) ∧
    nodeStore h' = nodeStore ex_leaf_sealed ∧
    listStore h' = listStore ex_leaf_sealed ∧
    propsStore h' = propsStore ex_leaf_sealed.
Proof.
  split; [vm_compute; reflexivity|].
  apply (setMounted_only_sets_enabled ex_leaf_sealed 2%positive
           (set_sealed true (ex_node 2 2 2)) 2%positive false true);
    vm_compute; reflexivity.
Defined.

(** ** C10: replaceChild unshares even without a match *)

(** C10: on an unsealed node whose children are shared, [replaceChild]
    returns with the node designating a list object that did not exist
    before and that no other node designates, and with the shared flag
    cleared, whether or not an element matches; without a match the new
    list has the contents of the old one; the old list object keeps its
    contents. *)
Theorem replaceChild_always_unshares h this n l oldChild newChild
    suggestedIndex o nv :
  nodeStore h !! this = Some n → sealed_ n = false →
  childrenAreShared_ n = true → listStore h !! children_ n = Some l →
  heap_wf h = true →
  readRef h oldChild = Some o → readRef h newChild = Some nv →
  ∃ h' n' l', replaceChild this oldChild newChild suggestedIndex h = Ok tt h' ∧
    nodeStore h' !! this = Some n' ∧
    children_ n' ≠ children_ n ∧ listStore h !! children_ n' = None ∧
    childrenAreShared_ n' = false ∧
    listStore h' !! children_ n' = Some l' ∧ (o ∉ l → l' = l) ∧
    listStore h' !! children_ n = Some l ∧
    (∀ m nm, m ≠ this → nodeStore h' !! m = Some nm →
             children_ nm ≠ children_ n').
Proof.
  intros Hn Hs Hsh Hl Hwf Ho Hnv.
  destruct (replaceChild_unsealed h this n l oldChild newChild suggestedIndex
              o nv Hn Hs Hl Ho Hnv)
    as (h1 & n1 & _ & Hn1 & _ & Hh1 & _ & Hr).
  specialize (Hh1 Hsh). subst h1.
  unfold unshared in Hn1; simpl in Hn1. rewrite lookup_insert_eq in Hn1.
  injection Hn1 as <-. simpl in Hr.
  assert (Hlim : replace_limit n (length l) oldChild = length l)
    by (unfold replace_limit, own_element; by rewrite Hsh).
  rewrite Hlim, replaced_children_upto_full in Hr by done.
  set (p := fresh (dom (listStore h))) in *.
  exists (set_listStore <[p := replaced_children l o nv suggestedIndex]>
            (unshared h this n l)),
         (set_children p (set_childrenAreShared false n)),
         (replaced_children l o nv suggestedIndex).
  assert (Hp : p ≠ children_ n) by (by apply fresh_list_ne with l).
  split; [exact Hr|]. unfold unshared; simpl. fold p.
  split; [apply lookup_insert_eq|]. split; [done|].
  split; [apply fresh_list_unused|]. split; [done|].
  split; [apply lookup_insert_eq|].
  split; [apply replaced_children_absent|]. split.
  - by rewrite !lookup_insert_ne.
  - intros m nm Hne Hm.
    by destruct (unshared_exclusive h this n l m nm Hwf Hne Hm).
Qed.

Lemma replaceChild_always_unshares_witness :
  ∃ h' n' l', replaceChild 1 (Detached 4) (Detached 3) (-1) ex_cloned
              = Ok tt h' ∧
    nodeStore h' !! 1%positive = Some n' ∧
    children_ n' ≠ 1%positive ∧ listStore ex_cloned !! children_ n' = None ∧
    childrenAreShared_ n' = false ∧
    listStore h' !! children_ n' = Some l' ∧
    (4%positive ∉ [2; 3]%positive → l' = [2; 3]%positive) ∧
    listStore h' !! 1%positive = Some [2; 3]%positive ∧
    (∀ m nm, m ≠ 1%positive → nodeStore h' !! m = Some nm →
             children_ nm ≠ children_ n').
Proof.
  apply (replaceChild_always_unshares ex_cloned 1%positive (ex_node 1 1 1)
           [2; 3]%positive (Detached 4) (Detached 3) (-1)%Z
           4%positive 3%positive);
    vm_compute; reflexivity.
Defined.

(** * Further properties *)

(** X1: [RCTIsReactRootView] answers YES exactly for the tags 1, 11, 21,
    ...: ten times a non-negative integer plus one.  A nil tag and every
    negative tag (such as -9, whose C remainder is -9) are not root
    views. *)
Theorem RCTIsReactRootView_iff (ReactTag : option Z) :
  ABI34_0_0RCTIsReactABI34_0_0RootView ReactTag = true ↔
  ∃ k, (0 ≤ k)%Z ∧ ReactTag = Some (10 * k + 1)%Z.
Proof.
  unfold ABI34_0_0RCTIsReactABI34_0_0RootView. rewrite bool_decide_eq_true.
  destruct ReactTag as [t|]; simpl.
  - pose proof (Z.quot_rem' t 10) as Hqr. split.
    + intros Hrem. exists (t ÷ 10)%Z.
      destruct (decide (0 ≤ t)%Z) as [Hpos|Hneg].
      * split; [by apply Z.quot_pos|]. f_equal. lia.
      * pose proof (Z.rem_nonpos t 10 ltac:(lia) ltac:(lia)). lia.
    + intros (k & Hk & [= ->]).
      rewrite Z.rem_mod_nonneg by lia.
      rewrite Z.add_comm, Z.mul_comm, Z.mod_add by lia. done.
  - split; [done|]. by intros (k & _ & ?).
Qed.

(** X4: along a chain of clones the revision grows by one per clone and
    the clone function is inherited; every clone is unsealed with the
    shared flag set; and while no fragment carries children, the last
    clone still designates the children list of the first node. *)
Lemma clone_chain_snoc source fragments fragment :
  clone_chain source (fragments ++ [fragment])
  = ShadowNode_from_source (clone_chain source fragments) fragment.
Proof. unfold clone_chain. by rewrite foldl_app. Qed.

Theorem clone_chain_revision source fragments :
  revision_ (clone_chain source fragments)
  = (revision_ source + Z.of_nat (length fragments))%Z ∧
  cloneFunction_ (clone_chain source fragments) = cloneFunction_ source ∧
  (fragments ≠ [] →
     sealed_ (clone_chain source fragments) = false ∧
     childrenAreShared_ (clone_chain source fragments) = true) ∧
  (Forall (λ f, children f = None) fragments →
     children_ (clone_chain source fragments) = children_ source).
Proof.
  induction fragments as [|f fragments IH] using rev_ind.
  - simpl. repeat split; [lia | done | done].
  - rewrite clone_chain_snoc, length_app. simpl.
    destruct IH as (Hrev & Hfn & _ & Hch).
    split; [lia|]. split; [done|]. split; [done|].
    intros Hall. apply Forall_app in Hall as [Hall Hf].
    inversion Hf as [|? ? Hf' _]; subst. rewrite Hf'. simpl. by apply Hch.
Qed.

Lemma clone_chain_revision_witness :
  revision_ (clone_chain (ex_node 1 1 1) [emptyFragment; ex_emitter_fragment])
  = (revision_ (ex_node 1 1 1) + Z.of_nat 2)%Z ∧
  cloneFunction_ (clone_chain (ex_node 1 1 1)
                    [emptyFragment; ex_emitter_fragment])
  = Some 1%positive ∧
  sealed_ (clone_chain (ex_node 1 1 1) [emptyFragment; ex_emitter_fragment])
  = false ∧
  children_ (clone_chain (ex_node 1 1 1) [emptyFragment; ex_emitter_fragment])
  = 1%positive.
Proof.
  destruct (clone_chain_revision (ex_node 1 1 1)
              [emptyFragment; ex_emitter_fragment])
    as (Hrev & Hfn & Hne & Hch).
  split; [exact Hrev|]. split; [exact Hfn|]. split.
  - apply Hne. discriminate.
  - apply Hch. repeat constructor.
Defined.

(** X7: on an unsealed node [setLocalData(d)] returns, a following
    [getLocalData()] answers [d], and nothing but that field of that
    node changes: no children list is copied or written. *)
Theorem setLocalData_getLocalData h this n localData :
  nodeStore h !! this = Some n → sealed_ n = false →
  ∃ h', setLocalData this localData h = Ok tt h' ∧
    getLocalData this h' = Ok localData h' ∧
    nodeStore h' = <[this := set_localData localData n]> (nodeStore h) ∧
    listStore h' = listStore h ∧ propsStore h' = propsStore h ∧
    emitterStore h' = emitterStore h ∧
    childrenOf h' this = childrenOf h this ∧
    getLocalData this h = Ok (localData_ n) h.
Proof.
  intros Hn Hs. eexists. split.
  { unfold setLocalData, bind, modifyNode.
    rewrite (ensureUnsealed_unsealed h this n Hn Hs), Hn. reflexivity. }
  unfold getLocalData, bind, getNode, ret, childrenOf; simpl.
  rewrite lookup_insert_eq, Hn. done.
Qed.

Lemma setLocalData_getLocalData_witness :
  ∃ h', setLocalData 1 (Some 7%positive) ex_heap = Ok tt h' ∧
    getLocalData 1 h' = Ok (Some 7%positive) h' ∧
    nodeStore h'
    = <[1%positive := set_localData (Some 7%positive) (ex_node 1 1 1)]>
        (nodeStore ex_heap) ∧
    listStore h' = listStore ex_heap ∧ propsStore h' = propsStore ex_heap ∧
    emitterStore h' = emitterStore ex_heap ∧
    childrenOf h' 1 = childrenOf ex_heap 1 ∧
    getLocalData 1 ex_heap = Ok (localData_ (ex_node 1 1 1)) ex_heap.
Proof.
  apply (setLocalData_getLocalData ex_heap 1%positive (ex_node 1 1 1)
           (Some 7%positive)); vm_compute; reflexivity.
Defined.

Lemma construct_from_fragment_run h static_ this fragment cloneFunction p :
  nodeStore h !! this = None → props fragment = Some p →
  construct_from_fragment static_ this fragment cloneFunction h =
    match children fragment, static_ with
    | Some c, _ =>
        Ok static_
           (set_nodeStore
              <[this := fresh_node fragment cloneFunction p c]> h)
    | None, Some e =>
        Ok (Some e)
           (set_nodeStore
              <[this := fresh_node fragment cloneFunction p e]> h)
    | None, None =>
        let e := fresh (dom (listStore h)) in
        Ok (Some e)
           (set_nodeStore
              <[this := fresh_node fragment cloneFunction p e]>
              (set_listStore <[e := []]> h))
    end.
Proof.
  intros Hfree Hp. unfold construct_from_fragment. rewrite Hfree.
  unfold bind, ShadowNode_from_fragment, emptySharedShadowNodeSharedList.
  rewrite Hp. destruct (children fragment) as [c|]; [done|].
  destruct static_ as [e|]; done.
Qed.

(** X2: for a fragment that carries props (what [assert(props_)]
    demands), the first constructor gives a node with revision 1,
    unsealed and with the shared flag set, whose tag, root tag, props
    and event emitter are the fragment's as they are and whose local
    data is null whatever the fragment carries.  Its children are the
    fragment's when given.  Otherwise they are the static empty list:
    the first such construction allocates it, a list object that did
    not exist, and every later one designates that same object and
    allocates nothing.  No existing list, payload or emitter changes. *)
Theorem construct_from_fragment_fields h static_ this fragment cloneFunction
    p :
  nodeStore h !! this = None → static_valid h static_ →
  props fragment = Some p →
  ∃ h' static' n,
    construct_from_fragment static_ this fragment cloneFunction h
    = Ok static' h' ∧
    nodeStore h' = <[this := n]> (nodeStore h) ∧
    propsStore h' = propsStore h ∧ emitterStore h' = emitterStore h ∧
    revision_ n = 1%Z ∧ sealed_ n = false ∧ childrenAreShared_ n = true ∧
    tag_ n = tag fragment ∧ rootTag_ n = rootTag fragment ∧
    props_ n = p ∧ eventEmitter_ n = eventEmitter fragment ∧
    localData_ n = None ∧ cloneFunction_ n = cloneFunction ∧
    static_valid h' static' ∧
    (∀ c, children fragment = Some c →
          children_ n = c ∧ listStore h' = listStore h ∧
          static' = static_) ∧
    (∀ e, children fragment = None → static_ = Some e →
          children_ n = e ∧ listStore h' = listStore h ∧
          static' = Some e) ∧
    (children fragment = None → static_ = None →
       listStore h !! children_ n = None ∧
       listStore h' = <[children_ n := []]> (listStore h) ∧
       static' = Some (children_ n)) ∧
    (children fragment = None → childrenOf h' this = Some []).
Proof.
  intros Hfree Hst Hp.
  rewrite (construct_from_fragment_run h static_ this fragment cloneFunction
             p Hfree Hp).
  destruct (children fragment) as [c|] eqn:Hc.
  - eexists _, _, _. split; [reflexivity|]. simpl.
    do 13 (split; [done|]).
    split; [by intros c' [= <-]|]. by repeat split.
  - destruct static_ as [e|].
    + simpl in Hst. eexists _, _, _. split; [reflexivity|].
      unfold static_valid; simpl.
      do 13 (split; [done|]).
      split; [done|]. split; [by intros e' _ [= <-]|]. split; [done|].
      intros _. unfold childrenOf; simpl. rewrite lookup_insert_eq. done.
    + eexists _, _, _. split; [reflexivity|].
      unfold static_valid; simpl.
      do 12 (split; [done|]).
      split; [apply lookup_insert_eq|].
      split; [done|]. split; [done|]. split.
      { intros _ _. split; [apply fresh_list_unused|done]. }
      intros _. unfold childrenOf; simpl. rewrite lookup_insert_eq. simpl.
      apply lookup_insert_eq.
Qed.

Lemma construct_from_fragment_fields_witness :
  ∃ h' static' n,
    construct_from_fragment (Some 3%positive) 7 ex_fragment None ex_constructed
    = Ok static' h' ∧
    nodeStore h' = <[7%positive := n]> (nodeStore ex_constructed) ∧
    propsStore h' = propsStore ex_constructed ∧
    emitterStore h' = emitterStore ex_constructed ∧
    revision_ n = 1%Z ∧ sealed_ n = false ∧ childrenAreShared_ n = true ∧
    tag_ n = 0%Z ∧ rootTag_ n = 7%Z ∧
    props_ n = 1%positive ∧ eventEmitter_ n = None ∧
    localData_ n = None ∧ cloneFunction_ n = None ∧
    static_valid h' static' ∧
    (∀ c, children ex_fragment = Some c →
          children_ n = c ∧ listStore h' = listStore ex_constructed ∧
          static' = Some 3%positive) ∧
    (∀ e, children ex_fragment = None → Some 3%positive = Some e →
          children_ n = e ∧ listStore h' = listStore ex_constructed ∧
          static' = Some e) ∧
    (children ex_fragment = None → Some 3%positive = None →
       listStore ex_constructed !! children_ n = None ∧
       listStore h' = <[children_ n := []]> (listStore ex_constructed) ∧
       static' = Some (children_ n)) ∧
    (children ex_fragment = None → childrenOf h' 7 = Some []).
Proof.
  apply (construct_from_fragment_fields ex_constructed (Some 3%positive)
           7%positive ex_fragment None 1%positive);
    vm_compute; reflexivity.
Defined.

Lemma construct_from_source_run h this source N fragment :
  nodeStore h !! source = Some N → nodeStore h !! this = None →
  construct_from_source this source fragment h
  = Ok tt (set_nodeStore <[this := ShadowNode_from_source N fragment]> h) ∧
  this ≠ source.
Proof.
  intros Hs Ht. split; [|congruence].
  unfold construct_from_source. by rewrite Ht, Hs.
Qed.


(** A node other than the one whose children were unshared and rewritten
    keeps its record and sees the children it saw. *)
Lemma unshared_rewritten_other h this n l l' m nm lm :
  m ≠ this → nodeStore h !! m = Some nm →
  listStore h !! children_ nm = Some lm →
  nodeStore (set_listStore <[fresh (dom (listStore h)) := l']>
               (unshared h this n l)) !! m = Some nm ∧
  childrenOf (set_listStore <[fresh (dom (listStore h)) := l']>
                (unshared h this n l)) m = Some lm ∧
  listStore (set_listStore <[fresh (dom (listStore h)) := l']>
               (unshared h this n l)) !! children_ nm = Some lm.
Proof.
  intros Hne Hm Hlm.
  assert (Hfresh : fresh (dom (listStore h)) ≠ children_ nm)
    by (by apply fresh_list_ne with lm).
  unfold childrenOf, unshared; simpl.
  rewrite lookup_insert_ne by done. rewrite Hm.
  rewrite !lookup_insert_ne by done. done.
Qed.

(** X3: two nodes constructed without children designate the same empty
    list, the second construction allocating nothing; [appendChild] on
    the first gives it a list of its own, and the second node and the
    shared empty list stay empty. *)
Theorem empty_children_singleton h static_ this1 this2 f1 f2 cf1 cf2 p1 p2
    child :
  nodeStore h !! this1 = None → nodeStore h !! this2 = None → this1 ≠ this2 →
  props f1 = Some p1 → props f2 = Some p2 →
  children f1 = None → children f2 = None → static_valid h static_ →
  ∃ e h1 h2 h3 n1 n2,
    construct_from_fragment static_ this1 f1 cf1 h = Ok (Some e) h1 ∧
    construct_from_fragment (Some e) this2 f2 cf2 h1 = Ok (Some e) h2 ∧
    listStore h2 = listStore h1 ∧
    nodeStore h2 !! this1 = Some n1 ∧ nodeStore h2 !! this2 = Some n2 ∧
    children_ n1 = e ∧ children_ n2 = e ∧
    appendChild this1 child h2 = Ok tt h3 ∧
    childrenOf h3 this1 = Some [child] ∧ childrenOf h3 this2 = Some [] ∧
    listStore h3 !! e = Some [].
Proof.
  intros Hf1 Hf2 Hne Hp1 Hp2 Hc1 Hc2 Hst.
  pose proof (construct_from_fragment_run h static_ this1 f1 cf1 p1 Hf1 Hp1)
    as Hrun1.
  rewrite Hc1 in Hrun1.
  assert (∃ e h1, construct_from_fragment static_ this1 f1 cf1 h
                  = Ok (Some e) h1 ∧
            nodeStore h1 = <[this1 := fresh_node f1 cf1 p1 e]> (nodeStore h) ∧
            listStore h1 !! e = Some [])
    as (e & h1 & Hr1 & Hn1 & He1).
  { destruct static_ as [e|].
    - exists e. eexists. split; [exact Hrun1|]. done.
    - eexists _, _. split; [exact Hrun1|]. simpl.
      split; [done|]. apply lookup_insert_eq. }
  assert (Hf2' : nodeStore h1 !! this2 = None)
    by (rewrite Hn1, lookup_insert_ne; done).
  pose proof (construct_from_fragment_run h1 (Some e) this2 f2 cf2 p2 Hf2' Hp2)
    as Hrun2.
  rewrite Hc2 in Hrun2.
  set (h2 := set_nodeStore <[this2 := fresh_node f2 cf2 p2 e]> h1) in *.
  assert (Hm1 : nodeStore h2 !! this1 = Some (fresh_node f1 cf1 p1 e)).
  { subst h2; simpl. rewrite lookup_insert_ne by done.
    rewrite Hn1. apply lookup_insert_eq. }
  assert (Hm2 : nodeStore h2 !! this2 = Some (fresh_node f2 cf2 p2 e))
    by (subst h2; simpl; apply lookup_insert_eq).
  assert (He2 : listStore h2 !! e = Some []) by exact He1.
  destruct (appendChild_unsealed h2 this1 _ [] child Hm1 eq_refl He2)
    as (h' & n' & _ & Hn' & _ & Hsh & _ & Hr3).
  specialize (Hsh eq_refl). subst h'.
  pose proof Hn' as Hn''.
  unfold unshared in Hn''; simpl in Hn''. rewrite lookup_insert_eq in Hn''.
  injection Hn'' as <-.
  destruct (unshared_rewritten_other h2 this1 (fresh_node f1 cf1 p1 e) []
              ([] ++ [child]) this2 _ [] ltac:(done) Hm2 He2)
    as (_ & Hch2 & Hkeep).
  eexists e, h1, h2, _, _, _.
  split; [exact Hr1|]. split; [exact Hrun2|]. split; [done|].
  split; [exact Hm1|]. split; [exact Hm2|]. split; [done|]. split; [done|].
  split; [exact Hr3|].
  split; [exact (childrenOf_stored _ this1 _ _ Hn')|].
  split; [exact Hch2 | exact Hkeep].
Qed.

Lemma empty_children_singleton_witness :
  ∃ e h1 h2 h3 n1 n2,
    construct_from_fragment None 6 ex_fragment None ex_heap = Ok (Some e) h1 ∧
    construct_from_fragment (Some e) 7 ex_fragment None h1 = Ok (Some e) h2 ∧
    listStore h2 = listStore h1 ∧
    nodeStore h2 !! 6%positive = Some n1 ∧
    nodeStore h2 !! 7%positive = Some n2 ∧
    children_ n1 = e ∧ children_ n2 = e ∧
    appendChild 6 2 h2 = Ok tt h3 ∧
    childrenOf h3 6 = Some [2%positive] ∧ childrenOf h3 7 = Some [] ∧
    listStore h3 !! e = Some [].
Proof.
  apply (empty_children_singleton ex_heap None 6%positive 7%positive
           ex_fragment ex_fragment None None 1%positive 1%positive 2%positive);
    first [vm_compute; reflexivity | discriminate | exact I].
Defined.

(** X5: a clone made without a children override starts with the
    source's children; [appendChild] and [replaceChild] on the clone
    then return, change the clone's children, and leave the source node
    and the source's children as they were; the source may be sealed. *)
Theorem mutating_clone_keeps_source h this source N l fragment :
  nodeStore h !! source = Some N → nodeStore h !! this = None →
  listStore h !! children_ N = Some l → children fragment = None →
  ∃ h1, construct_from_source this source fragment h = Ok tt h1 ∧
    childrenOf h1 this = Some l ∧
    (∀ child, ∃ h2, appendChild this child h1 = Ok tt h2 ∧
       childrenOf h2 this = Some (l ++ [child]) ∧
       nodeStore h2 !! source = Some N ∧ childrenOf h2 source = Some l) ∧
    (∀ oldChild newChild suggestedIndex o nv,
       readRef h1 oldChild = Some o → readRef h1 newChild = Some nv →
       ∃ h2, replaceChild this oldChild newChild suggestedIndex h1 = Ok tt h2 ∧
         childrenOf h2 this
         = Some (replaced_children l o nv suggestedIndex) ∧
         nodeStore h2 !! source = Some N ∧ childrenOf h2 source = Some l).
Proof.
  intros Hs Ht Hl Hc.
  destruct (construct_from_source_run h this source N fragment Hs Ht)
    as [Hrun Hne].
  set (N' := ShadowNode_from_source N fragment) in *.
  set (h1 := set_nodeStore <[this := N']> h) in *.
  assert (Hch : children_ N' = children_ N)
    by (subst N'; simpl; by rewrite Hc).
  assert (Hn1 : nodeStore h1 !! this = Some N')
    by (subst h1; simpl; apply lookup_insert_eq).
  assert (Hl1 : listStore h1 !! children_ N' = Some l)
    by (rewrite Hch; exact Hl).
  assert (Hs1 : nodeStore h1 !! source = Some N)
    by (subst h1; simpl; by rewrite lookup_insert_ne).
  assert (Hsrc : ∀ l',
            nodeStore (set_listStore <[fresh (dom (listStore h1)) := l']>
                         (unshared h1 this N' l)) !! source = Some N ∧
            childrenOf (set_listStore <[fresh (dom (listStore h1)) := l']>
                          (unshared h1 this N' l)) source = Some l).
  { intros l'.
    destruct (unshared_rewritten_other h1 this N' l l' source N l
                ltac:(done) Hs1 Hl) as (? & ? & _).
    done. }
  exists h1. split; [exact Hrun|]. split.
  { unfold childrenOf. by rewrite Hn1. }
  split.
  - intros child.
    destruct (appendChild_unsealed h1 this N' l child Hn1 eq_refl Hl1)
      as (h' & n' & _ & Hn' & _ & Hsh & _ & Hr).
    specialize (Hsh eq_refl). subst h'.
    eexists. split; [exact Hr|].
    split; [exact (childrenOf_stored _ this _ _ Hn')|].
    unfold unshared in Hn'; simpl in Hn'. rewrite lookup_insert_eq in Hn'.
    injection Hn' as <-. apply Hsrc.
  - intros oldChild newChild suggestedIndex o nv Ho Hnv.
    destruct (replaceChild_unsealed h1 this N' l oldChild newChild
                suggestedIndex o nv Hn1 eq_refl Hl1 Ho Hnv)
      as (h' & n' & _ & Hn' & _ & Hsh & _ & Hr).
    specialize (Hsh eq_refl). subst h'.
    assert (Hlim : replace_limit N' (length l) oldChild = length l)
      by (unfold replace_limit, own_element; done).
    rewrite Hlim, replaced_children_upto_full in Hr by done.
    eexists. split; [exact Hr|].
    split; [exact (childrenOf_stored _ this _ _ Hn')|].
    unfold unshared in Hn'; simpl in Hn'. rewrite lookup_insert_eq in Hn'.
    injection Hn' as <-. apply Hsrc.
Qed.

(** X6: when an unsealed node that owns its children list (shared flag
    clear) is cloned, and [appendChild] is then called on the source,
    the append is done in place: the clone, which designates the same
    list, sees the new child too. *)
Theorem appendChild_on_source_reaches_clone h this source N l fragment child :
  nodeStore h !! source = Some N → nodeStore h !! this = None →
  sealed_ N = false → childrenAreShared_ N = false →
  listStore h !! children_ N = Some l → children fragment = None →
  ∃ h1 h2, construct_from_source this source fragment h = Ok tt h1 ∧
    childrenOf h1 this = Some l ∧
    appendChild source child h1 = Ok tt h2 ∧
    nodeStore h2 = nodeStore h1 ∧
    childrenOf h2 source = Some (l ++ [child]) ∧
    childrenOf h2 this = Some (l ++ [child]).
Proof.
  intros Hs Ht Hsealed Hown Hl Hc.
  destruct (construct_from_source_run h this source N fragment Hs Ht)
    as [Hrun Hne].
  set (N' := ShadowNode_from_source N fragment) in *.
  set (h1 := set_nodeStore <[this := N']> h) in *.
  assert (Hch : children_ N' = children_ N)
    by (subst N'; simpl; by rewrite Hc).
  assert (Hn1 : nodeStore h1 !! this = Some N')
    by (subst h1; simpl; apply lookup_insert_eq).
  assert (Hs1 : nodeStore h1 !! source = Some N)
    by (subst h1; simpl; by rewrite lookup_insert_ne).
  assert (Hl1 : listStore h1 !! children_ N = Some l) by exact Hl.
  destruct (appendChild_unsealed h1 source N l child Hs1 Hsealed Hl1)
    as (h' & n' & _ & _ & _ & _ & Hsame & Hr).
  destruct (Hsame Hown) as [-> ->].
  exists h1. eexists. split; [exact Hrun|]. split.
  { unfold childrenOf. rewrite Hn1, Hch. exact Hl. }
  split; [exact Hr|]. split; [done|]. split; [by apply childrenOf_stored|].
  unfold childrenOf, set_listStore.
  change (nodeStore (mkHeap (nodeStore h1)
            (<[children_ N := l ++ [child]]> (listStore h1))
            (propsStore h1) (emitterStore h1)) !! this)
    with (nodeStore h1 !! this).
  rewrite Hn1, Hch. apply lookup_insert_eq.
Qed.

Lemma mutating_clone_keeps_source_witness :
  ∃ h1, construct_from_source 5 1 emptyFragment ex_root_sealed = Ok tt h1 ∧
    childrenOf h1 5 = Some [2; 3]%positive ∧
    (∀ child, ∃ h2, appendChild 5 child h1 = Ok tt h2 ∧
       childrenOf h2 5 = Some ([2; 3]%positive ++ [child]) ∧
       nodeStore h2 !! 1%positive = Some (set_sealed true (ex_node 1 1 1)) ∧
       childrenOf h2 1 = Some [2; 3]%positive) ∧
    (∀ oldChild newChild suggestedIndex o nv,
       readRef h1 oldChild = Some o → readRef h1 newChild = Some nv →
       ∃ h2, replaceChild 5 oldChild newChild suggestedIndex h1 = Ok tt h2 ∧
         childrenOf h2 5
         = Some (replaced_children [2; 3]%positive o nv suggestedIndex) ∧
         nodeStore h2 !! 1%positive = Some (set_sealed true (ex_node 1 1 1)) ∧
         childrenOf h2 1 = Some [2; 3]%positive).
Proof.
  apply (mutating_clone_keeps_source ex_root_sealed 5%positive 1%positive
           (set_sealed true (ex_node 1 1 1)) [2; 3]%positive emptyFragment);
    vm_compute; reflexivity.
Defined.

Lemma appendChild_on_source_reaches_clone_witness :
  ∃ h1 h2, construct_from_source 5 1 emptyFragment ex_duplicate = Ok tt h1 ∧
    childrenOf h1 5 = Some [2; 3; 2]%positive ∧
    appendChild 1 4 h1 = Ok tt h2 ∧
    nodeStore h2 = nodeStore h1 ∧
    childrenOf h2 1 = Some ([2; 3; 2]%positive ++ [4%positive]) ∧
    childrenOf h2 5 = Some ([2; 3; 2]%positive ++ [4%positive]).
Proof.
  apply (appendChild_on_source_reaches_clone ex_duplicate 5%positive
           1%positive
           (set_children 3 (set_childrenAreShared false (ex_node 1 1 1)))
           [2; 3; 2]%positive emptyFragment 4%positive);
    vm_compute; reflexivity.
Defined.





















Lemma sealed_mutators_fault h a :
  node_sealed h a = true →
  (∀ child, appendChild a child h = Fault h) ∧
  (∀ oldChild newChild suggestedIndex,
     replaceChild a oldChild newChild suggestedIndex h = Fault h) ∧
  (∀ localData, setLocalData a localData h = Fault h).
Proof.
  unfold node_sealed. intros Hs.
  destruct (nodeStore h !! a) as [n|] eqn:Hn; [|done].
  pose proof (ensureUnsealed_sealed h a n Hn Hs) as He.
  repeat split; intros;
    unfold appendChild, replaceChild, setLocalData, bind; by rewrite He.
Qed.

(** X11: on every tree, whatever is sealed already, [sealRecursive()]
    returns with the root sealed, and it only adds seals: children
    lists, event emitters and all other fields are unchanged, and no
    node or payload that was sealed becomes unsealed. *)
Theorem sealRecursive_only_seals d h root :
  wf_tree d h root = true →
  ∃ h', sealRecursive d root h = Ok tt h' ∧
    node_sealed h' root = true ∧
    seal_ext h h' ∧
    (∀ a, childrenOf h' a = childrenOf h a) ∧
    (∀ a, node_sealed h a = true → node_sealed h' a = true) ∧
    (∀ a, payload_sealed h a = true → payload_sealed h' a = true) ∧
    wf_tree d h' root = true.
Proof.
  intros Hwf.
  destruct (sealRecursive_seals d root h (λ _, False) Hwf)
    as (h' & Hrun & Hext & _ & Hs); [by intros a []|].
  exists h'. split; [done|]. split; [done|]. split; [done|].
  split; [intros a; by apply seal_ext_childrenOf|].
  split; [intros a; by apply seal_ext_node_sealed|].
  split; [intros a; by apply seal_ext_payload_sealed|].
  by eapply seal_ext_wf_tree.
Qed.

Lemma sealRecursive_only_seals_witness :
  ∃ h', sealRecursive 3 1 ex_root_sealed = Ok tt h' ∧
    node_sealed h' 1 = true ∧
    seal_ext ex_root_sealed h' ∧
    (∀ a, childrenOf h' a = childrenOf ex_root_sealed a) ∧
    (∀ a, node_sealed ex_root_sealed a = true → node_sealed h' a = true) ∧
    (∀ a, payload_sealed ex_root_sealed a = true →
          payload_sealed h' a = true) ∧
    wf_tree 3 h' 1 = true.
Proof.
  apply (sealRecursive_only_seals 3 ex_root_sealed 1%positive).
  vm_compute; reflexivity.
Defined.

(** X13: after [sealRecursive()] on the root of a tree (in which every
    node already sealed has a sealed payload and sealed children),
    [appendChild], [replaceChild] and [setLocalData] fault on every node
    of the tree and change nothing. *)
Theorem sealed_tree_is_frozen d h root :
  wf_tree d h root = true → sealed_closed_tree d h root = true →
  ∃ h', sealRecursive d root h = Ok tt h' ∧
    ∀ a, reachable h root a →
      (∀ child, appendChild a child h' = Fault h') ∧
      (∀ oldChild newChild suggestedIndex,
         replaceChild a oldChild newChild suggestedIndex h' = Fault h') ∧
      (∀ localData, setLocalData a localData h' = Fault h').
Proof.
  intros Hwf Hclosed.
  destruct (sealRecursive_seals d root h (reachable h root) Hwf
              (sealed_closed_tree_sealed_on d h root Hclosed))
    as (h' & Hrun & Hext & Hinv & Hs).
  exists h'. split; [done|]. intros a Hr.
  apply sealed_mutators_fault.
  assert (Hch : ∀ x, childrenOf h' x = childrenOf h x)
    by (intros x; by apply seal_ext_childrenOf).
  destruct (sealed_reachable h h' root root a Hch Hinv) as [Hsa _];
    [constructor | done | done | done].
Qed.

Lemma sealed_tree_is_frozen_witness :
  ∃ h', sealRecursive 3 1 ex_heap = Ok tt h' ∧
    ∀ a, reachable ex_heap 1 a →
      (∀ child, appendChild a child h' = Fault h') ∧
      (∀ oldChild newChild suggestedIndex,
         replaceChild a oldChild newChild suggestedIndex h' = Fault h') ∧
      (∀ localData, setLocalData a localData h' = Fault h').
Proof.
  apply (sealed_tree_is_frozen 3 ex_heap 1%positive); vm_compute; reflexivity.
Defined.

Lemma touched_within_refl R h : touched_within R h h.
Proof. split; [done|]. intros p. by left. Qed.

Lemma touched_within_weaken (R R' : addr → Prop) h h' :
  (∀ x, R x → R' x) → touched_within R h h' → touched_within R' h h'.
Proof.
  intros Himp [Hn Hp]. split.
  - intros x Hx. apply Hn. intros HR. by apply Hx, Himp.
  - intros p. destruct (Hp p) as [Heq|(x & n & HR & Hx & Hpn)]; [by left|].
    right. exists x, n. split; [by apply Himp|done].
Qed.

Lemma touched_within_trans R h1 h2 h3 :
  seal_ext h1 h2 → touched_within R h1 h2 → touched_within R h2 h3 →
  touched_within R h1 h3.
Proof.
  intros (_ & _ & Hext & _) [Hn1 Hp1] [Hn2 Hp2]. split.
  - intros x Hx. rewrite Hn2 by done. by apply Hn1.
  - intros p. destruct (Hp2 p) as [Heq|(x & n2 & HR & Hx & Hpn)].
    + rewrite Heq. apply Hp1.
    + right. specialize (Hext x).
      destruct (nodeStore h1 !! x) as [n1|] eqn:Hx1.
      * destruct Hext as (b & Hb & _). rewrite Hb in Hx.
        injection Hx as <-. by exists x, n1.
      * by rewrite Hext in Hx.
Qed.

Lemma seal_ext_reachable h h' a x :
  seal_ext h h' → reachable h' a x → reachable h a x.
Proof.
  intros Hext Hr. induction Hr as [a|a c n l Hl Hin _ IH]; [constructor|].
  rewrite (seal_ext_childrenOf h h' a Hext) in Hl.
  by eapply reach_child.
Qed.

Lemma for_each_sealRecursive_touches d :
  touches_from d →
  ∀ l h, Forall (λ c, wf_tree d h c = true) l →
    ∃ h', for_each l (sealRecursive d) h = Ok tt h' ∧ seal_ext h h' ∧
          touched_within (λ x, ∃ c, c ∈ l ∧ reachable h c x) h h'.
Proof.
  intros IHd. induction l as [|c l IHl]; intros h Hwf.
  - exists h. split; [done|]. split; [apply seal_ext_refl|].
    apply touched_within_refl.
  - apply Forall_cons in Hwf as [Hc Hl].
    destruct (IHd c h Hc) as (h1 & Hrun1 & Hext1 & Ht1).
    destruct (IHl h1) as (h2 & Hrun2 & Hext2 & Ht2).
    { eapply Forall_impl; [exact Hl|]. intros c' Hc'. simpl in Hc'.
      by eapply seal_ext_wf_tree. }
    exists h2. split; [simpl; unfold bind; by rewrite Hrun1|].
    split; [by eapply seal_ext_trans|].
    apply touched_within_trans with h1; [done| |].
    + eapply touched_within_weaken; [|exact Ht1].
      intros x Hx. exists c. split; [by left|done].
    + eapply touched_within_weaken; [|exact Ht2].
      intros x (c' & Hin & Hx). exists c'. split; [by right|].
      by eapply seal_ext_reachable.
Qed.

Lemma sealRecursive_touches d : touches_from d.
Proof.
  induction d as [|d IHd]; intros a h Hwf; [done|].
  destruct (wf_tree_unfold d h a Hwf) as (n & b & l & Hn & Hb & Hl & Hall).
  simpl. unfold bind at 1. unfold getSealed, bind, getNode, ret.
  rewrite Hn. destruct (sealed_ n) eqn:Hsealed.
  { exists h. split; [done|]. split; [apply seal_ext_refl|].
    apply touched_within_refl. }
  destruct (seal_step h a n Hn) as [Hrun1 Hext1].
  set (h1 := set_nodeStore <[a := set_sealed true n]> h) in *.
  assert (Hn1 : nodeStore h1 !! a = Some (set_sealed true n))
    by (subst h1; simpl; apply lookup_insert_eq).
  destruct (Props_seal_step h1 (props_ n) b Hb) as [Hrun2 Hext2].
  set (h2 := set_propsStore <[props_ n := true]> h1) in *.
  assert (Hl2 : listStore h2 !! children_ n = Some l) by exact Hl.
  assert (Hext : seal_ext h h2) by (by eapply seal_ext_trans).
  assert (Ht2 : touched_within (reachable h a) h h2).
  { split.
    - intros x Hx. assert (a ≠ x) by (intros ->; apply Hx; constructor).
      change (nodeStore h2 !! x) with (<[a := set_sealed true n]>
                                         (nodeStore h) !! x).
      by rewrite lookup_insert_ne.
    - intros p. destruct (decide (props_ n = p)) as [<-|Hne].
      + right. exists a, n. split; [constructor|done].
      + left. change (propsStore h2 !! p)
          with (<[props_ n := true]> (propsStore h) !! p).
        by rewrite lookup_insert_ne. }
  destruct (for_each_sealRecursive_touches d IHd l h2)
    as (h3 & Hrun3 & Hext3 & Ht3).
  { eapply Forall_impl; [exact Hall|]. intros c Hc. simpl in Hc.
    by eapply seal_ext_wf_tree. }
  exists h3. split.
  { rewrite Hrun1, Hn1. simpl. rewrite Hrun2.
    unfold getList. rewrite Hl2. exact Hrun3. }
  split; [by eapply seal_ext_trans|].
  apply touched_within_trans with h2; [done|done|].
  eapply touched_within_weaken; [|exact Ht3].
  intros x (c & Hin & Hx). apply reach_child with c l.
  - unfold childrenOf. by rewrite Hn.
  - done.
  - by eapply seal_ext_reachable.
Qed.

(** X12: [sealRecursive()] changes no node that is not reachable from
    the root, and no payload other than those of reachable nodes. *)
Theorem sealRecursive_frame d h root :
  wf_tree d h root = true →
  ∃ h', sealRecursive d root h = Ok tt h' ∧
    (∀ x, ¬ reachable h root x → nodeStore h' !! x = nodeStore h !! x) ∧
    (∀ p, (∀ x n, reachable h root x → nodeStore h !! x = Some n →
                  props_ n ≠ p) →
          propsStore h' !! p = propsStore h !! p) ∧
    listStore h' = listStore h ∧ emitterStore h' = emitterStore h.
Proof.
  intros Hwf.
  destruct (sealRecursive_touches d root h Hwf)
    as (h' & Hrun & (Hl & He & _) & Hn & Hp).
  exists h'. split; [done|]. split; [done|]. split; [|done].
  intros p Hnone. destruct (Hp p) as [Heq|(x & n & HR & Hx & Hpn)]; [done|].
  by destruct (Hnone x n HR Hx).
Qed.

Lemma sealRecursive_frame_witness :
  ∃ h', sealRecursive 2 2 ex_heap = Ok tt h' ∧
    (∀ x, ¬ reachable ex_heap 2 x →
          nodeStore h' !! x = nodeStore ex_heap !! x) ∧
    (∀ p, (∀ x n, reachable ex_heap 2 x → nodeStore ex_heap !! x = Some n →
                  props_ n ≠ p) →
          propsStore h' !! p = propsStore ex_heap !! p) ∧
    listStore h' = listStore ex_heap ∧ emitterStore h' = emitterStore ex_heap.
Proof.
  apply (sealRecursive_frame 2 ex_heap 2%positive). vm_compute; reflexivity.
Defined.

Lemma search_children_ext search1 search2 a l out :
  (∀ c out, search1 c out = search2 c out) →
  search_children search1 a l out = search_children search2 a l out.
Proof.
  intros Hext. revert out. induction l as [|c l IH]; intros out; [done|].
  simpl. rewrite Hext. destruct (search2 c out) as [[[] out']|]; auto.
Qed.

(** The search reads the heap only through the children sequences. *)
Lemma constructAncestorPath_childrenOf fuel h h' this a out :
  (∀ x, childrenOf h' x = childrenOf h x) →
  constructAncestorPath fuel h' this a out
  = constructAncestorPath fuel h this a out.
Proof.
  intros Hch. revert a out. induction fuel as [|fuel IH]; intros a out; [done|].
  simpl. destruct (decide (this = a)) as [Heq|Hne]; [done|].
  specialize (Hch a). unfold childrenOf in Hch.
  destruct (nodeStore h' !! a) as [n'|], (nodeStore h !! a) as [n|].
  - rewrite Hch. destruct (listStore h !! children_ n); [|done].
    by apply search_children_ext.
  - by rewrite Hch.
  - by rewrite <- Hch.
  - done.
Qed.

(** X14: the ancestor search reads only the children sequences, so
    after [sealRecursive()] every [constructAncestorPath] call answers
    what it answered before. *)
Theorem sealRecursive_keeps_ancestor_paths d h root :
  wf_tree d h root = true →
  ∃ h', sealRecursive d root h = Ok tt h' ∧
    ∀ fuel this ancestorShadowNode ancestors,
      constructAncestorPath fuel h' this ancestorShadowNode ancestors
      = constructAncestorPath fuel h this ancestorShadowNode ancestors.
Proof.
  intros Hwf.
  destruct (sealRecursive_seals d root h (λ _, False) Hwf)
    as (h' & Hrun & Hext & _ & _); [by intros a []|].
  exists h'. split; [done|]. intros fuel this a out.
  apply constructAncestorPath_childrenOf.
  intros x. by apply seal_ext_childrenOf.
Qed.

Lemma sealRecursive_keeps_ancestor_paths_witness :
  ∃ h', sealRecursive 3 1 ex_heap = Ok tt h' ∧
    ∀ fuel this ancestorShadowNode ancestors,
      constructAncestorPath fuel h' this ancestorShadowNode ancestors
      = constructAncestorPath fuel ex_heap this ancestorShadowNode ancestors.
Proof.
  apply (sealRecursive_keeps_ancestor_paths 3 ex_heap 1%positive).
  vm_compute; reflexivity.
Defined.

Section first_child.
Variable h : Heap.
Variable this : addr.

(** Children below which [this] is not found are passed over, and the
    loop goes on with the vector as it was. *)
Lemma search_children_skip d a l1 l out :
  Forall (λ c, wf_tree d h c = true) l1 →
  (∀ x, x ∈ l1 → ¬ reachable h x this) →
  search_children (constructAncestorPath d h this) a (l1 ++ l) out
  = search_children (constructAncestorPath d h this) a l out.
Proof.
  induction l1 as [|x l1 IH]; intros Hwf Hnone; [done|].
  apply Forall_cons in Hwf as [Hx Hwf]. simpl.
  destruct (constructAncestorPath_answer h this d x out Hx)
    as (b & out' & -> & Htrue & Hfalse).
  destruct b.
  - destruct (Htrue eq_refl) as (path & _ & Hchain & _).
    exfalso. apply (Hnone x); [by left|].
    by eapply ancestor_chain_reachable.
  - destruct (Hfalse eq_refl) as [-> _]. apply IH; [done|].
    intros y Hy. apply Hnone. by right.
Qed.

End first_child.

(** X15: when the node looked for is not the ancestor, the search goes
    through the ancestor's first child (in children order) from which
    the node is reachable: the path appended is the path found below
    that child, followed by the ancestor. *)
Theorem constructAncestorPath_first_child d h this ancestorShadowNode l1 c l2
    ancestors :
  wf_tree (S d) h ancestorShadowNode = true → this ≠ ancestorShadowNode →
  childrenOf h ancestorShadowNode = Some (l1 ++ c :: l2) →
  (∀ x, x ∈ l1 → ¬ reachable h x this) → reachable h c this →
  ∃ path,
    constructAncestorPath d h this c ancestors
    = Some (true, ancestors ++ path) ∧
    ancestor_chain h this path c ∧
    constructAncestorPath (S d) h this ancestorShadowNode ancestors
    = Some (true, ancestors ++ path ++ [ancestorShadowNode]).
Proof.
  intros Hwf Hne Hch Hnone Hreach.
  destruct (wf_tree_unfold d h _ Hwf) as (n & b & l & Hn & _ & Hl & Hall).
  unfold childrenOf in Hch. rewrite Hn, Hl in Hch. injection Hch as ->.
  apply Forall_app in Hall as [Hall1 Hall2].
  apply Forall_cons in Hall2 as [Hc _].
  destruct (constructAncestorPath_answer h this d c ancestors Hc)
    as (bc & out' & Hrc & Htrue & Hfalse).
  destruct bc; [|by destruct (Hfalse eq_refl)].
  destruct (Htrue eq_refl) as (path & -> & Hchain & _).
  exists path. split; [done|]. split; [done|].
  simpl. rewrite decide_False by done. rewrite Hn, Hl.
  rewrite (search_children_skip h this d _ l1 (c :: l2) ancestors Hall1 Hnone).
  simpl. rewrite Hrc. by rewrite app_assoc.
Qed.

Lemma constructAncestorPath_first_child_witness :
  ∃ path,
    constructAncestorPath 2 ex_deep 4 3 [] = Some (true, [] ++ path) ∧
    ancestor_chain ex_deep 4 path 3 ∧
    constructAncestorPath 3 ex_deep 4 1 []
    = Some (true, [] ++ path ++ [1%positive]).
Proof.
  apply (constructAncestorPath_first_child 2 ex_deep 4%positive 1%positive
           [2%positive] 3%positive [] []).
  - vm_compute; reflexivity.
  - discriminate.
  - vm_compute; reflexivity.
  - intros x Hx Hr. apply list_elem_of_singleton in Hx. subst x.
    inversion Hr as [|? c ? l Hl Hin _]; subst.
    vm_compute in Hl. injection Hl as <-. by apply elem_of_nil in Hin.
  - apply reach_child with 4%positive [4%positive].
    + vm_compute; reflexivity.
    + by left.
    + constructor.
Defined.
